(** * VideoResound: the segmented dubbing pipeline

    A shallow embedding of the orchestration code of the repository:
    - [processors/voice_cloner.py]: [generate_timed_audio] (the timed
      synthesis assembler) and [load_voice_samples];
    - [processors/whisper_processor.py]: [translate_to_spanish] and its
      cache;
    - [video_dubber.py]: the progress ledger, [validate_progress],
      [process_segment] and the segment loop of [dub_video].

    External engines (Whisper, the TTS model, moviepy, ffmpeg, Google
    Translate) and the file system are oracles carried in environment
    records.  A JSON file is absent, unreadable or holds a value, and a
    write of one completes, is refused, or tears the file.  Python floats
    are modelled by rationals ([Q]): arithmetic is exact, binary rounding
    is not modelled except inside [float(str)], where it decides the
    integer obtained by [int(float(s))]. *)

From Stdlib Require Import ZArith QArith Qminmax Qround Lia Lqa.
From Stdlib Require Import String Ascii List Sorted.
From stdpp Require Import gmap strings pretty.
Close Scope Q_scope.
Local Open Scope string_scope.
Local Open Scope list_scope.
Local Open Scope Z_scope.

(** ** Python primitives used by the code *)

Module Py.

(** Exceptions that the modelled code raises or lets escape. *)
Inductive exn :=
  | ValueError
  | OverflowError
  | ZeroDivisionError
  | KeyError
  | TypeError
  | JSONDecodeError
  | RuntimeError (msg : string).

#[global] Instance exn_eq_dec : EqDecision exn.
Proof. solve_decision. Defined.

Inductive result (A : Type) :=
  | Ok (a : A)
  | Raise (e : exn).
Arguments Ok {A} a.
Arguments Raise {A} e.

#[global] Instance result_ret : MRet result := λ A a, Ok a.
#[global] Instance result_bind : MBind result := λ A B k r,
  match r with
  | Ok a => k a
  | Raise e => Raise e
  end.

(** A number that is either a Python [int] or a Python [float]. *)
Inductive num :=
  | Int (z : Z)
  | Float (q : Q).

Definition value (n : num) : Q :=
  match n with
  | Int z => inject_Z z
  | Float q => q
  end.

Definition Qlt_bool (a b : Q) : bool := negb (Qle_bool b a).

(** [min(a, b)]: the first argument unless the second is strictly smaller. *)
Definition min_Q (a b : Q) : Q := if Qlt_bool b a then b else a.
Definition min_num (a b : num) : num :=
  if Qlt_bool (value b) (value a) then b else a.

(** [int(x)] on a float: truncation toward zero. *)
Definition int_of_float (q : Q) : Z := Z.quot (Qnum q) (Zpos (Qden q)).

(** [math.ceil(a / b)] for a float [a] and an int [b]. *)
Definition ceil_div (a : Q) (b : Z) : result Z :=
  if b =? 0 then Raise ZeroDivisionError
  else Ok (Qceiling (a / inject_Z b)).

(** [range(start, stop, step)] as the list it iterates over. *)
Definition range (start stop step : Z) : result (list Z) :=
  if step =? 0 then Raise ValueError
  else
    let n :=
      if 0 <? step then (stop - start + step - 1) / step
      else (start - stop - step - 1) / (- step) in
    Ok (map (λ i : nat, start + Z.of_nat i * step) (seq 0 (Z.to_nat n))).

(** What a reader finds where a JSON file should be: no file, a file the
    reading of which raises (left torn by a write that failed half-way,
    or not of the shape the code expects), or the content. *)
Inductive stored (A : Type) :=
  | Absent
  | Unreadable (ex : exn)
  | Holds (content : A).
Arguments Absent {A}.
Arguments Unreadable {A} ex.
Arguments Holds {A} content.

(** How [open(path, 'w')] followed by [json.dump] ends: the file is
    written; [open] raises and the file is left alone; or [open] has
    truncated the file and the writing raises, which leaves a file that
    is not JSON. *)
Inductive file_write :=
  | Completes
  | Refused
  | Tears.

(** The file a write leaves behind. *)
Definition file_after {A : Type} (w : file_write) (before : stored A)
    (content : A) : stored A :=
  match w with
  | Completes => Holds content
  | Refused => before
  | Tears => Unreadable JSONDecodeError
  end.

(** Truthiness of an optional string ([None] and [""] are falsy). *)
Definition truthy (o : option string) : bool :=
  match o with
  | Some (String _ _) => true
  | _ => false
  end.

(** *** Strings *)

(** ASCII white space as [str.strip] and [float] see it. *)
Definition is_space (c : ascii) : bool :=
  let n := N_of_ascii c in
  ((9 <=? n) && (n <=? 13) || (28 <=? n) && (n <=? 32))%N.

Fixpoint lstrip (s : string) : string :=
  match s with
  | String c s' => if is_space c then lstrip s' else s
  | EmptyString => EmptyString
  end.

Definition strip (s : string) : string :=
  String.rev (lstrip (String.rev (lstrip s))).

(** A string that does not begin with white space. *)
Definition starts_clean (s : string) : Prop :=
  match s with
  | EmptyString => True
  | String c _ => is_space c = false
  end.

(** [c in s] for a character [c]. *)
Fixpoint has_char (c : ascii) (s : string) : bool :=
  match s with
  | EmptyString => false
  | String c' s' => Ascii.eqb c' c || has_char c s'
  end.

(** [s.split(sep)] for a one-character separator. *)
Fixpoint split (sep : ascii) (s : string) : list string :=
  match s with
  | EmptyString => [EmptyString]
  | String c s' =>
      if Ascii.eqb c sep then EmptyString :: split sep s'
      else
        match split sep s' with
        | w :: ws => String c w :: ws
        | [] => [String c EmptyString]
        end
  end.

(** [os.path.join(a, b)] (POSIX). *)
Definition ends_with_slash (a : string) : bool :=
  match String.rev a with
  | String c _ => Ascii.eqb c "/"
  | EmptyString => false
  end.

Definition path_join (a b : string) : string :=
  match b with
  | String "/" _ => b
  | _ =>
      if ends_with_slash a then a +:+ b
      else match a with
           | EmptyString => b
           | _ => a +:+ "/" +:+ b
           end
  end.

(** [os.path.basename(p)]: what follows the last slash. *)
Definition basename (p : string) : string :=
  List.last (split "/" p) EmptyString.

(** *** Printing numbers: [f"{x}"] *)

Definition digit_char (d : Z) : ascii := pretty_N_char (Z.to_N d).

(** Digits of the fraction [n / d] (with [0 <= n < d]), at most [fuel]. *)
Fixpoint frac_digits (fuel : nat) (n d : Z) : string :=
  match fuel with
  | O => EmptyString
  | S fuel' =>
      if n =? 0 then EmptyString
      else String (digit_char (10 * n / d)) (frac_digits fuel' (10 * n mod d) d)
  end.

(** [repr] of a float, in the positional notation Python uses for
    magnitudes in [1e-4, 1e16): the float is identified with its shortest
    round-trip decimal, so [Float (1401 # 2)] prints as [700.5] and
    [Float 700] as [700.0]. *)
Definition repr_float (q : Q) : string :=
  let n := Qnum q in
  let d := Zpos (Qden q) in
  let a := Z.abs n in
  let frac := frac_digits 17 (a mod d) d in
  (if n <? 0 then "-" else "")
    +:+ pretty (a / d) +:+ "."
    +:+ (match frac with EmptyString => "0" | _ => frac end).

Definition format (n : num) : string :=
  match n with
  | Int z => pretty z
  | Float q => repr_float q
  end.

(** *** Reading numbers: [int(float(s))] *)

Definition is_digit (c : ascii) : bool :=
  let n := N_of_ascii c in ((48 <=? n) && (n <=? 57))%N.

Definition digit_val (c : ascii) : Z := Z.of_N (N_of_ascii c) - 48.

(** Splits the longest prefix of decimal digits off a string. *)
Fixpoint span_digits (s : string) : string * string :=
  match s with
  | String c s' =>
      if is_digit c then
        let '(ds, rest) := span_digits s' in (String c ds, rest)
      else (EmptyString, s)
  | EmptyString => (EmptyString, EmptyString)
  end.

Fixpoint digits_val (acc : Z) (s : string) : Z :=
  match s with
  | String c s' => digits_val (10 * acc + digit_val c) s'
  | EmptyString => acc
  end.

Definition lower (c : ascii) : ascii :=
  let n := N_of_ascii c in
  if ((65 <=? n) && (n <=? 90))%N then ascii_of_N (n + 32) else c.

Fixpoint lower_string (s : string) : string :=
  match s with
  | String c s' => String (lower c) (lower_string s')
  | EmptyString => EmptyString
  end.

(** An optional sign: [(negative, rest)]. *)
Definition take_sign (s : string) : bool * string :=
  match s with
  | String "-" s' => (true, s')
  | String "+" s' => (false, s')
  | _ => (false, s)
  end.

(** The exponent part [e[+-]digits] or nothing; [None] when malformed. *)
Definition parse_exponent (s : string) : option Z :=
  match s with
  | EmptyString => Some 0
  | String c s' =>
      if Ascii.eqb (lower c) "e" then
        let '(neg, s'') := take_sign s' in
        match span_digits s'' with
        | (String _ _ as ds, EmptyString) =>
            Some (if neg then - digits_val 0 ds else digits_val 0 ds)
        | _ => None
        end
      else None
  end.

(** A float literal without sign: mantissa digits [m] and decimal
    exponent [e], standing for [m * 10^e]. *)
Definition parse_decimal (s : string) : option (Z * Z) :=
  let '(ip, r1) := span_digits s in
  let '(fp, r2) :=
    match r1 with
    | String "." r => span_digits r
    | _ => (EmptyString, r1)
    end in
  match ip, fp with
  | EmptyString, EmptyString => None
  | _, _ =>
      match parse_exponent r2 with
      | Some e =>
          Some (digits_val 0 (ip +:+ fp), e - Z.of_nat (String.length fp))
      | None => None
      end
  end.

(** Round-half-even of the fraction [a / b], [b > 0]. *)
Definition round_half_even (a b : Z) : Z :=
  let fl := a / b in
  let r := a mod b in
  if 2 * r <? b then fl
  else if b <? 2 * r then fl + 1
  else if Z.even fl then fl else fl + 1.

(** [round(x)] for a float: the nearest integer, a tie going to the even
    one. *)
Definition round_float (q : Q) : Z :=
  round_half_even (Qnum q) (Zpos (Qden q)).

(** [int(float(x))] for the positive rational [n / d]: the binary64
    nearest to [n / d] (53-bit significand, ties to even), truncated;
    [None] when that float is infinite. *)
Definition trunc_binary64 (n d : Z) : option Z :=
  if 2 * n <? d then Some 0
  else if (2 ^ 1024 - 2 ^ 970) * d <=? n then None
  else
    let k0 := Z.log2 n - Z.log2 d in
    let k :=
      if n * 2 ^ Z.max 0 (- k0) <? d * 2 ^ Z.max 0 k0 then k0 - 1 else k0 in
    if 52 <=? k then
      Some (round_half_even n (d * 2 ^ (k - 52)) * 2 ^ (k - 52))
    else
      Some (round_half_even (n * 2 ^ (52 - k)) d / 2 ^ (52 - k)).

(** Number of decimal digits of a positive integer. *)
Definition ndigits (m : Z) : Z := Z.of_nat (String.length (pretty m)).

(** [int(float(s))].  [s] is a piece of a key split at underscores, so
    digit-group underscores cannot occur in it. *)
Definition int_float (s : string) : result Z :=
  let '(neg, body) := take_sign (strip s) in
  let low := lower_string body in
  if String.eqb low "inf" || String.eqb low "infinity" then Raise OverflowError
  else if String.eqb low "nan" then Raise ValueError
  else
    match parse_decimal body with
    | None => Raise ValueError
    | Some (m, e) =>
        if m =? 0 then Ok 0
        else if 310 <? ndigits m + e then Raise OverflowError
        else if ndigits m + e <? -1 then Ok 0
        else
          let '(n, d) := if 0 <=? e then (m * 10 ^ e, 1) else (m, 10 ^ (- e)) in
          match trunc_binary64 n d with
          | Some z => Ok (if neg then - z else z)
          | None => Raise OverflowError
          end
    end.

End Py.

(** ** [processors/voice_cloner.py] and [models/subtitle.py] *)

Module VoiceCloner.
Import Py.

(** [SubtitleSegment]: a timed utterance, times in seconds. *)
Record SubtitleSegment := {
  start : Q;
  end_ : Q;
  content : string
}.

(** [SubtitleSegment.__init__] trims the text. *)
Definition new_subtitle (s e : Q) (text : string) : SubtitleSegment :=
  {| start := s; end_ := e; content := strip text |}.

(** A [pydub.AudioSegment] built by [+=]: the pieces appended so far.
    [Silent ms] is [AudioSegment.silent(duration=ms)]; [Speech text ms] is
    the clip read back from the wav synthesized for [text], [ms] long.
    Lengths are kept exact, in milliseconds; pydub would round a silence
    down to whole frames. *)
Inductive piece :=
  | Silent (ms : Q)
  | Speech (text : string) (ms : Q).

Definition track := list piece.

(** A silence of negative duration has no frames. *)
Definition piece_len (p : piece) : Q :=
  match p with
  | Silent ms => if Qlt_bool 0 ms then ms else 0%Q
  | Speech _ ms => ms
  end.

(** The duration of a track, in milliseconds. *)
Definition track_len (t : track) : Q :=
  foldr (λ p acc, Qplus (piece_len p) acc) (0 : Q) t.

(** [len(audio)]: the duration rounded to whole milliseconds. *)
Definition audio_len (t : track) : Z := round_float (track_len t).

(** What the synthesis of one subtitle comes to: [tts_to_file] raises (or
    the wav it wrote cannot be read back); it returns without leaving a
    wav at [file_path]; it writes a wav of the given length, which is
    read and removed; or it writes one that is read but cannot be
    removed afterwards ([os.remove] raises). *)
Inductive tts_outcome :=
  | TtsRaises
  | TtsNoFile
  | TtsWrote (ms : Q)
  | TtsWroteStuck (ms : Q).

(** The world outside: which paths exist, what reading the approved-sample
    metadata file at a path gives ([json.load(f)["samples"]]), and the
    synthesizer ([text], [file_path], [speaker_wav]). *)
Record env := {
  path_exists : string → bool;
  metadata_samples : string → stored (list string);
  tts_to_file : string → string → string → tts_outcome
}.

(** The fields of a [VoiceCloner] that the modelled methods read. *)
Record cloner := {
  samples_dir : option string;
  approved_dir : option string
}.

(** [VoiceCloner.__init__] leaves the directories unset. *)
Definition new_cloner : cloner :=
  {| samples_dir := None; approved_dir := None |}.

Definition set_work_directory (work_dir : string) : cloner :=
  let samples := path_join work_dir "voice_references" in
  {| samples_dir := Some samples;
     approved_dir := Some (path_join samples "approved") |}.

(** [load_voice_samples]: [Ok None] is the method returning [None].
    Nothing guards the reading of the metadata file: what it raises
    leaves the method. *)
Definition load_voice_samples (e : env) (self : cloner) (voice_name : string)
  : result (option (list string)) :=
  if negb (truthy (samples_dir self)) then
    Raise (RuntimeError "Work directory not set")
  else
    match approved_dir self with
    | None => Raise TypeError
    | Some approved =>
        let voice_dir := path_join approved voice_name in
        let metadata_path := path_join voice_dir "metadata.json" in
        match metadata_samples e metadata_path with
        | Holds samples =>
            if forallb (path_exists e) samples then Ok (Some samples)
            else Ok None
        | Unreadable ex => Raise ex
        | Absent => Ok None
        end
    end.

(** [sorted(subtitles, key=lambda x: x.start)]: a stable sort. *)
Fixpoint insert_by_start (x : SubtitleSegment) (l : list SubtitleSegment)
  : list SubtitleSegment :=
  match l with
  | [] => [x]
  | y :: l' =>
      if Qle_bool (start x) (start y) then x :: l
      else y :: insert_by_start x l'
  end.

Definition sorted_by_start (l : list SubtitleSegment) : list SubtitleSegment :=
  foldr insert_by_start [] l.

Definition temp_speech (i : nat) : string :=
  "temp_speech_" +:+ pretty i +:+ ".wav".

(** The silence appended before subtitle [i], if any. *)
Definition gap_before (i : nat) (sub : SubtitleSegment) (last_end : Q) : Q :=
  if (0 <? i)%nat then Qminus (start sub) last_end else 0%Q.

Definition leading_silence (max_gap gap : Q) : track :=
  if Qlt_bool 0 gap then
    [Silent (min_Q (Qmult gap 1000) (Qmult max_gap 1000))]
  else [].

(** The clip appended for subtitle [i], when its synthesis wrote one. *)
Definition clip_of (e : env) (reference : string) (i : nat)
    (sub : SubtitleSegment) : track :=
  match tts_to_file e (content sub) (temp_speech i) reference with
  | TtsWrote ms | TtsWroteStuck ms => [Speech (content sub) ms]
  | _ => []
  end.

(** One iteration of the loop over [enumerate(sorted_subs)], on the state
    [(final_audio, last_end)].  Both ways of failing (an exception, or no
    wav written) leave [last_end] alone and keep what was appended; so
    does a wav that cannot be removed, whose clip is appended before
    [os.remove] raises.  The sentences of [split_into_sentences] are only
    printed. *)
Definition process_subtitle (e : env) (reference : string) (max_gap : Q)
    (i : nat) (sub : SubtitleSegment) (st : track * Q) : track * Q :=
  let '(final_audio, last_end) := st in
  let gap := gap_before i sub last_end in
  let final_audio := final_audio ++ leading_silence max_gap gap in
  match tts_to_file e (content sub) (temp_speech i) reference with
  | TtsWrote ms => (final_audio ++ [Speech (content sub) ms], end_ sub)
  | TtsWroteStuck ms => (final_audio ++ [Speech (content sub) ms], last_end)
  | TtsNoFile => (final_audio, last_end)
  | TtsRaises => (final_audio, last_end)
  end.

Fixpoint subtitle_loop (e : env) (reference : string) (max_gap : Q)
    (i : nat) (subs : list SubtitleSegment) (st : track * Q) : track * Q :=
  match subs with
  | [] => st
  | sub :: rest =>
      subtitle_loop e reference max_gap (S i) rest
        (process_subtitle e reference max_gap i sub st)
  end.

(** The reference sample to use: the given path, or its namesake among
    the approved samples of the default profile. *)
Definition resolve_reference (e : env) (self : cloner)
    (reference_audio_path : string) : option string :=
  if path_exists e reference_audio_path then Some reference_audio_path
  else
    match approved_dir self with
    | None => None
    | Some approved =>
        let approved_path :=
          path_join (path_join approved "default")
            (basename reference_audio_path) in
        if path_exists e approved_path then Some approved_path else None
    end.

(** What [generate_timed_audio] returns and what it wrote. *)
Record timed_audio := {
  returned : bool;
  exported : option (string * track)
}.

Definition generate_timed_audio (e : env) (self : cloner)
    (subtitles : list SubtitleSegment) (output_path : string)
    (reference_audio_path : string) (max_gap : Q) : timed_audio :=
  match resolve_reference e self reference_audio_path with
  | None => {| returned := false; exported := None |}
  | Some reference =>
      let '(final_audio, _) :=
        subtitle_loop e reference max_gap 0 (sorted_by_start subtitles)
          ([], 0%Q) in
      if 0 <? audio_len final_audio then
        {| returned := true; exported := Some (output_path, final_audio) |}
      else {| returned := false; exported := None |}
  end.

(** *** The other methods of [VoiceCloner] *)

(** [_segments_overlap]: do two time ranges [(start, end)] overlap. *)
Definition segments_overlap (range1 range2 : Q * Q) : bool :=
  let '(start1, end1) := range1 in
  let '(start2, end2) := range2 in
  negb (Qlt_bool end1 start2 || Qlt_bool end2 start1).

(** [split_into_sentences]: the loop over the characters, on the state
    [(current, sentences)]. *)
Fixpoint sentences_loop (text current : string) (sentences : list string)
  : string * list string :=
  match text with
  | EmptyString => (current, sentences)
  | String char rest =>
      let current := current +:+ String char "" in
      if has_char char ".!?" then
        sentences_loop rest "" (sentences ++ [strip current])
      else sentences_loop rest current sentences
  end.

Definition split_into_sentences (text : string) : list string :=
  let '(current, sentences) := sentences_loop text "" [] in
  match current with
  | EmptyString => sentences
  | _ => sentences ++ [strip current]
  end.

(** Is a piece of a track a synthesized clip. *)
Definition is_speech (p : piece) : bool :=
  match p with
  | Speech _ _ => true
  | Silent _ => false
  end.

(** **** [extract_voice_references] *)

(** [min_duration <= (end - start) / 1000 <= max_duration] for a chunk
    [(start, end)] in milliseconds. *)
Definition qualifies (min_duration max_duration : Q) (chunk : Z * Z) : bool :=
  let duration := (inject_Z (chunk.2 - chunk.1) / 1000)%Q in
  Qle_bool min_duration duration && Qle_bool duration max_duration.

Definition sample_path (extracted_dir : string) (i : nat) : string :=
  path_join extracted_dir ("sample_" +:+ pretty (S i) +:+ ".wav").

(** The loop over [enumerate(chunks)], from index [i] on, with its
    [break] once five samples are there. *)
Fixpoint extract_loop (extracted_dir : string) (min_duration max_duration : Q)
    (i : nat) (chunks : list (Z * Z)) (extracted_samples : list string)
  : list string :=
  match chunks with
  | [] => extracted_samples
  | chunk :: rest =>
      if qualifies min_duration max_duration chunk then
        let extracted_samples :=
          extracted_samples ++ [sample_path extracted_dir i] in
        if (5 <=? length extracted_samples)%nat then extracted_samples
        else extract_loop extracted_dir min_duration max_duration (S i) rest
               extracted_samples
      else extract_loop extracted_dir min_duration max_duration (S i) rest
             extracted_samples
  end.

(** One analysis of the video: [nonsilent silence_thresh] gives the
    chunks [detect_nonsilent] finds at that threshold, or [None] when
    loading or analysing the video raises. *)
Definition extract_pass (nonsilent : Z → option (list (Z * Z)))
    (extracted_dir : string) (min_duration max_duration : Q)
    (silence_thresh : Z) : option (list string) :=
  match nonsilent silence_thresh with
  | Some chunks =>
      Some (extract_loop extracted_dir min_duration max_duration 0 chunks [])
  | None => None
  end.

(** [extract_voice_references], its two retries unrolled.  An exception
    anywhere, an unset work directory included, gives [[]].
    [extracted_dir] is [samples_dir/extracted], as [set_work_directory]
    sets it. *)
Definition extract_voice_references (nonsilent : Z → option (list (Z * Z)))
    (self : cloner) (min_duration max_duration : Q) (silence_thresh : Z)
  : list string :=
  match samples_dir self with
  | None => []
  | Some samples =>
      let extracted_dir := path_join samples "extracted" in
      let last_try :=
        default [] (extract_pass nonsilent extracted_dir 2 20 (-50)) in
      match extract_pass nonsilent extracted_dir min_duration max_duration
              silence_thresh with
      | None => []
      | Some [] =>
          if silence_thresh =? -40 then
            match extract_pass nonsilent extracted_dir 2 15 (-45) with
            | None => []
            | Some [] => last_try
            | Some found => found
            end
          else if silence_thresh =? -45 then last_try
          else []
      | Some found => found
      end
  end.

(** **** [save_approved_samples] *)

Definition reference_path (voice_dir : string) (i : nat) : string :=
  path_join voice_dir ("reference_" +:+ pretty (S i) +:+ ".wav").

(** The world after a file was written at [dst]; [abspath] tells which
    paths name the same file. *)
Definition with_file (abspath : string → string) (e : env) (dst : string)
  : env :=
  {| path_exists := λ p,
       if decide (abspath p = abspath dst) then true else path_exists e p;
     metadata_samples := metadata_samples e;
     tts_to_file := tts_to_file e |}.

(** The world after [metadata.json] was written with a sample list. *)
Definition with_metadata (abspath : string → string) (e : env)
    (metadata_path : string) (samples : list string) : env :=
  {| path_exists := λ p,
       if decide (abspath p = abspath metadata_path) then true
       else path_exists e p;
     metadata_samples := λ p,
       if decide (abspath p = abspath metadata_path) then Holds samples
       else metadata_samples e p;
     tts_to_file := tts_to_file e |}.

(** How a call of [save_approved_samples] ends, with the world it
    leaves: a guard raised, [shutil.copy2] found no source file, or the
    profile was saved and the new paths are returned. *)
Inductive save_outcome :=
  | SaveRaises (ex : exn) (e' : env)
  | SourceMissing (sample_path : string) (e' : env)
  | Saved (saved_paths : list string) (e' : env).

(** The loop over [enumerate(approved_samples)], from index [i] on. *)
Fixpoint copy_samples (abspath : string → string) (voice_dir : string)
    (i : nat) (approved_samples : list string) (e : env)
    (saved_paths : list string) : save_outcome :=
  match approved_samples with
  | [] => Saved saved_paths e
  | sample_path :: rest =>
      let new_path := reference_path voice_dir i in
      if decide (abspath sample_path = abspath new_path) then
        copy_samples abspath voice_dir (S i) rest e (saved_paths ++ [new_path])
      else if path_exists e sample_path then
        copy_samples abspath voice_dir (S i) rest
          (with_file abspath e new_path) (saved_paths ++ [new_path])
      else SourceMissing sample_path e
  end.

Definition save_approved_samples (abspath : string → string) (e : env)
    (self : cloner) (approved_samples : list string) (voice_name : string)
  : save_outcome :=
  if negb (truthy (samples_dir self)) then
    SaveRaises (RuntimeError "Work directory not set") e
  else
    match approved_dir self with
    | None => SaveRaises TypeError e
    | Some approved =>
        let voice_dir := path_join approved voice_name in
        match copy_samples abspath voice_dir 0 approved_samples e [] with
        | Saved saved_paths e' =>
            Saved saved_paths
              (with_metadata abspath e' (path_join voice_dir "metadata.json")
                 saved_paths)
        | stopped => stopped
        end
    end.

(** The clips of the subtitles whose synthesis succeeds, in the order of
    the list, the first subtitle having index [i]. *)
Fixpoint synthesized_clips (e : env) (reference : string) (i : nat)
    (subs : list SubtitleSegment) : track :=
  match subs with
  | [] => []
  | sub :: rest =>
      clip_of e reference i sub ++ synthesized_clips e reference (S i) rest
  end.

(** The indices, counted from [i], of the chunks that qualify. *)
Fixpoint qualifying (min_duration max_duration : Q) (i : nat)
    (chunks : list (Z * Z)) : list nat :=
  match chunks with
  | [] => []
  | chunk :: rest =>
      if qualifies min_duration max_duration chunk
      then i :: qualifying min_duration max_duration (S i) rest
      else qualifying min_duration max_duration (S i) rest
  end.

(** Paths that name the same file exist together. *)
Definition same_file_same_fate (abspath : string → string) (e : env) : Prop :=
  ∀ p q, abspath p = abspath q → path_exists e p = path_exists e q.

End VoiceCloner.

(** ** [utils/audio.py]: the interactive review of voice samples *)

Module Audio.
Import Py.

(** [input(...).lower().strip()]. *)
Definition choice_of (typed : string) : string := strip (lower_string typed).

(** The [for] loop of [verify_voice_samples] over the samples still to
    be shown, on the state [(approved_samples, prompts answered)];
    [answers n] is what the user types at the [n]-th prompt.  In reuse
    mode [s] approves the sample on show and all that follow, and ends
    the loop. *)
Fixpoint review_samples (reuse_mode : bool) (answers : nat → string)
    (cursor : nat) (samples : list string) (approved_samples : list string)
  : list string * nat :=
  match samples with
  | [] => (approved_samples, cursor)
  | sample :: rest =>
      let choice := choice_of (answers cursor) in
      if reuse_mode && String.eqb choice "s" then
        (approved_samples ++ samples, S cursor)
      else if String.eqb choice "y" then
        review_samples reuse_mode answers (S cursor) rest
          (approved_samples ++ [sample])
      else review_samples reuse_mode answers (S cursor) rest approved_samples
  end.

(** What [verify_voice_samples] comes to: it returns a list or [None],
    or it is still asking after [fuel] rounds. *)
Inductive verdict :=
  | StillAsking
  | Returns (approved_samples : option (list string)).

(** The [while] loop, at most [fuel] rounds of it.  [extracted] is what
    [extract_voice_references(input_video_path, 4, 8, -45)] gives when
    the user asks for new samples. *)
Fixpoint verify_rounds (fuel : nat) (reuse_mode : bool)
    (extracted : list string) (answers : nat → string) (cursor : nat)
    (current_samples : list string) : verdict :=
  match fuel with
  | O => StillAsking
  | S fuel' =>
      match review_samples reuse_mode answers cursor current_samples [] with
      | ((_ :: _) as approved_samples, _) => Returns (Some approved_samples)
      | ([], cursor') =>
          if reuse_mode then Returns None
          else
            let choice := choice_of (answers cursor') in
            if String.eqb choice "q" then Returns None
            else if String.eqb choice "y" then
              verify_rounds fuel' reuse_mode extracted answers (S cursor')
                extracted
            else Returns None
      end
  end.

Definition verify_voice_samples (fuel : nat)
    (nonsilent : Z → option (list (Z * Z))) (answers : nat → string)
    (samples : list string) (voice_cloner : VoiceCloner.cloner)
    (reuse_mode : bool) : verdict :=
  verify_rounds fuel reuse_mode
    (VoiceCloner.extract_voice_references nonsilent voice_cloner 4 8 (-45))
    answers 0 samples.

End Audio.

(** ** [processors/whisper_processor.py]: the translation cache *)

Module WhisperProcessor.
Import Py.

(** What one call of [self.translator.translate] does. *)
Inductive engine_outcome :=
  | EngineRaises
  | EngineReturns (text : string).

(** [cache_write] tells how a writing of the cache file ends. *)
Record env := {
  translate : string → engine_outcome;
  cache_write : file_write
}.

(** The fields of a [WhisperProcessor] behind [translate_to_spanish],
    with what the cache file on disk holds. *)
Record processor := {
  translation_cache : gmap string string;
  cache_file : option string;
  cache_on_disk : stored (gmap string string)
}.

(** [save_translation_cache]: a failed write is reported and swallowed,
    whatever it has done to the file. *)
Definition save_translation_cache (e : env) (self : processor) : processor :=
  if truthy (cache_file self)
     && negb (bool_decide (translation_cache self = ∅)) then
    {| translation_cache := translation_cache self;
       cache_file := cache_file self;
       cache_on_disk :=
         file_after (cache_write e) (cache_on_disk self)
           (translation_cache self) |}
  else self.

(** A call of [translate_to_spanish]: the value returned, the processor
    afterwards, and the texts sent to the engine during the call. *)
Record translation := {
  returned : string;
  after : processor;
  engine_calls : list string
}.

Definition translate_to_spanish (e : env) (self : processor) (text : string)
  : translation :=
  match text with
  | EmptyString => {| returned := text; after := self; engine_calls := [] |}
  | _ =>
      match translation_cache self !! text with
      | Some cached =>
          {| returned := cached; after := self; engine_calls := [] |}
      | None =>
          match translate e text with
          | EngineReturns raw =>
              let translated := strip raw in
              match translated with
              | String _ _ =>
                  let self' :=
                    {| translation_cache :=
                         <[text := translated]> (translation_cache self);
                       cache_file := cache_file self;
                       cache_on_disk := cache_on_disk self |} in
                  {| returned := translated;
                     after := if truthy (cache_file self')
                              then save_translation_cache e self'
                              else self';
                     engine_calls := [text] |}
              | EmptyString =>
                  {| returned := text; after := self; engine_calls := [text] |}
              end
          | EngineRaises =>
              {| returned := text; after := self; engine_calls := [text] |}
          end
      end
  end.

(** *** Transcribing and translating a window *)

(** An entry of Whisper's [result["segments"]]; a missing text is [""]. *)
Record raw_segment := {
  seg_start : Q;
  seg_end : Q;
  seg_text : string
}.

(** The loop of [process_video_segment] over the segments, on the state
    [(self, ru_subs, es_subs)]. *)
Fixpoint translate_segments (e : env) (self : processor)
    (segments : list raw_segment)
    (ru_subs es_subs : list VoiceCloner.SubtitleSegment)
  : processor * list VoiceCloner.SubtitleSegment
    * list VoiceCloner.SubtitleSegment :=
  match segments with
  | [] => (self, ru_subs, es_subs)
  | segment :: rest =>
      match strip (seg_text segment) with
      | EmptyString => translate_segments e self rest ru_subs es_subs
      | ru_text =>
          let t := translate_to_spanish e self ru_text in
          translate_segments e (after t) rest
            (ru_subs ++ [VoiceCloner.new_subtitle (seg_start segment)
                           (seg_end segment) ru_text])
            (es_subs ++ [VoiceCloner.new_subtitle (seg_start segment)
                           (seg_end segment) (returned t)])
      end
  end.

(** The subtitle file [process_video_segment] writes for a language. *)
Definition srt_path (temp_dir lang : string) (start_time : Z)
    (end_time : num) : string :=
  path_join (path_join temp_dir "subtitles")
    (lang +:+ "_" +:+ pretty start_time +:+ "_" +:+ format end_time
       +:+ ".srt").

(** What [process_video_segment] returns and leaves behind: the two
    subtitle lists, the processor, and the subtitle files written. *)
Record segment_subtitles := {
  ru_subs : list VoiceCloner.SubtitleSegment;
  es_subs : list VoiceCloner.SubtitleSegment;
  processor_after : processor;
  written : list (string * list VoiceCloner.SubtitleSegment)
}.

(** [process_video_segment]; [transcription] is what Whisper makes of the
    window, [None] when extracting or transcribing the audio raises. *)
Definition process_video_segment (e : env)
    (transcription : option (list raw_segment)) (self : processor)
    (temp_dir : string) (start_time : Z) (end_time : num)
  : segment_subtitles :=
  match transcription with
  | None =>
      {| ru_subs := []; es_subs := []; processor_after := self;
         written := [] |}
  | Some segments =>
      let '(self', ru, es) := translate_segments e self segments [] [] in
      {| ru_subs := ru; es_subs := es; processor_after := self';
         written :=
           match ru with
           | [] => []
           | _ => [(srt_path temp_dir "ru" start_time end_time, ru);
                   (srt_path temp_dir "es" start_time end_time, es)]
           end |}
  end.

(** The subtitle a Whisper segment gives: none when its text is blank. *)
Definition heard_line (segment : raw_segment)
  : option VoiceCloner.SubtitleSegment :=
  match strip (seg_text segment) with
  | EmptyString => None
  | ru_text =>
      Some (VoiceCloner.new_subtitle (seg_start segment) (seg_end segment)
              ru_text)
  end.

(** A target-language line [es] stands for the source line [ru] under a
    cache: same timing, and its text is the cached translation of the
    source text, trimmed, or the source text itself. *)
Definition stands_for (cache : gmap string string)
    (ru es : VoiceCloner.SubtitleSegment) : Prop :=
  VoiceCloner.start es = VoiceCloner.start ru
  ∧ VoiceCloner.end_ es = VoiceCloner.end_ ru
  ∧ ((∃ cached, cache !! VoiceCloner.content ru = Some cached
                ∧ VoiceCloner.content es = strip cached)
     ∨ VoiceCloner.content es = VoiceCloner.content ru).

(** *** Opening the cache of a work directory *)

(** [WhisperProcessor()], in a world where the cache file is as
    [on_disk] says. *)
Definition new_processor (on_disk : stored (gmap string string))
  : processor :=
  {| translation_cache := ∅; cache_file := None; cache_on_disk := on_disk |}.

(** [load_translation_cache(work_dir)]; [cache_on_disk] is what the cache
    file of [work_dir] holds.  A file that cannot be read empties the
    cache. *)
Definition load_translation_cache (self : processor) (work_dir : string)
  : processor :=
  {| translation_cache :=
       match cache_on_disk self with
       | Holds cached => cached
       | Unreadable _ => ∅
       | Absent => translation_cache self
       end;
     cache_file := Some (path_join work_dir "translation_cache.json");
     cache_on_disk := cache_on_disk self |}.

(** The cache in memory is the one a new processor would load. *)
Definition cache_in_sync (self : processor) : Prop :=
  match cache_on_disk self with
  | Holds cached => cached = translation_cache self
  | _ => translation_cache self = ∅
  end.

End WhisperProcessor.

(** ** [video_dubber.py]: ledger, validation and the segment loop *)

Module VideoDubber.
Import Py.

(** A ledger entry; [output] is [None] when the field is absent or null. *)
Record SegmentRecord := {
  output : option string;
  completed : bool
}.

(** The world outside the orchestrator.  [process_video_segment] stands
    for [WhisperProcessor.process_video_segment] and gives the
    target-language subtitles of a window (none when it failed);
    [reference_audio] is the sample left by the interactive voice phase
    ([None]: the user cancelled); [merge_succeeds] tells whether
    [merge_audio_video] returns without raising; [ffmpeg_succeeds] whether
    ffmpeg exits with status 0 on a manifest. *)
Record env := {
  cloner_env : VoiceCloner.env;
  progress_write : file_write;
  duration : Q;
  reference_audio : option string;
  process_video_segment : Z → num → list VoiceCloner.SubtitleSegment;
  merge_succeeds : Z → num → bool;
  abspath : string → string;
  ffmpeg_succeeds : list string → bool
}.

Definition exists_ (e : env) (p : string) : bool :=
  VoiceCloner.path_exists (cloner_env e) p.

(** The fields of a [VideoDubber], with the content of [progress.json]. *)
Record dubber := {
  TEMP_DIR : string;
  voice_cloner : VoiceCloner.cloner;
  progress : gmap string SegmentRecord;
  progress_on_disk : stored (gmap string SegmentRecord)
}.

Definition with_progress (self : dubber) (p : gmap string SegmentRecord)
  : dubber :=
  {| TEMP_DIR := TEMP_DIR self;
     voice_cloner := voice_cloner self;
     progress := p;
     progress_on_disk := progress_on_disk self |}.

(** [save_progress]: a failed write is reported and swallowed, whatever
    it has done to the file. *)
Definition save_progress (e : env) (self : dubber) : dubber :=
  {| TEMP_DIR := TEMP_DIR self;
     voice_cloner := voice_cloner self;
     progress := progress self;
     progress_on_disk :=
       file_after (progress_write e) (progress_on_disk self)
         (progress self) |}.

Definition subtitle_path (temp_dir lang : string) (start_time end_time : Z)
  : string :=
  path_join (path_join temp_dir "subtitles")
    (lang +:+ "_" +:+ pretty start_time +:+ "_" +:+ pretty end_time +:+ ".srt").

(** What the body of the validation loop does with one entry. *)
Inductive verdict :=
  | Keep
  | Drop
  | Escapes (ex : exn).

(** [int(float(s))] inside [try ... except (ValueError, IndexError)]. *)
Definition guarded_int (s : string) (k : Z → verdict) : verdict :=
  match int_float s with
  | Ok z => k z
  | Raise ValueError => Drop
  | Raise ex => Escapes ex
  end.

Definition check_entry (e : env) (temp_dir segment_key : string)
    (data : SegmentRecord) : verdict :=
  if truthy (output data) && exists_ e (default "" (output data)) then
    match split "_" segment_key with
    | [_; start_str; end_str] =>
        guarded_int start_str (λ start_time,
        guarded_int end_str (λ end_time,
          if exists_ e (subtitle_path temp_dir "ru" start_time end_time)
             && exists_ e (subtitle_path temp_dir "es" start_time end_time)
          then Keep else Drop))
    | _ => Drop
    end
  else Drop.

(** The checks of the validation contract, spelled out: the entry has a
    merged output that exists, its key splits at underscores into three
    parts of which the last two read as numbers, and both subtitle files
    named after the truncated numbers exist. *)
Definition backed_entry (e : env) (temp_dir segment_key : string)
    (data : SegmentRecord) : Prop :=
  ∃ out prefix start_str end_str start_time end_time,
    output data = Some out ∧ out ≠ "" ∧ exists_ e out = true
    ∧ split "_" segment_key = [prefix; start_str; end_str]
    ∧ int_float start_str = Ok start_time
    ∧ int_float end_str = Ok end_time
    ∧ exists_ e (subtitle_path temp_dir "ru" start_time end_time) = true
    ∧ exists_ e (subtitle_path temp_dir "es" start_time end_time) = true.

Definition kept (e : env) (temp_dir : string) (kd : string * SegmentRecord)
  : Prop :=
  check_entry e temp_dir kd.1 kd.2 = Keep.

#[global] Instance verdict_eq_dec : EqDecision verdict.
Proof. solve_decision. Defined.

#[global] Instance kept_dec e temp_dir kd : Decision (kept e temp_dir kd).
Proof. unfold kept. apply _. Defined.

Definition valid_progress (e : env) (self : dubber)
  : gmap string SegmentRecord :=
  filter (kept e (TEMP_DIR self)) (progress self).

(** Exceptions that leave the validation loop.  Only [OverflowError] can,
    so which entry the loop visits first does not matter. *)
Definition escaping (e : env) (self : dubber) : list exn :=
  omap (λ kd : string * SegmentRecord,
          match check_entry e (TEMP_DIR self) kd.1 kd.2 with
          | Escapes ex => Some ex
          | _ => None
          end)
       (map_to_list (progress self)).

(** [len(self.progress) - len(valid_progress)]. *)
Definition invalid_segments (e : env) (self : dubber) : nat :=
  (size (progress self) - size (valid_progress e self))%nat.

(** [validate_progress]: the dubber afterwards and the value returned. *)
Definition validate_progress (e : env) (self : dubber)
  : result (dubber * bool) :=
  if bool_decide (progress self = ∅) then Ok (self, true)
  else
    match escaping e self with
    | ex :: _ => Raise ex
    | [] =>
        if (0 <? invalid_segments e self)%nat then
          Ok (save_progress e (with_progress self (valid_progress e self)),
              true)
        else Ok (self, true)
    end.

(** *** The segment loop of [dub_video] *)

(** [end_time = min(start_time + segment_duration, duration)]. *)
Definition window_end (duration : Q) (segment_duration start_time : Z) : num :=
  min_num (Int (start_time + segment_duration)) (Float duration).

(** [range(0, int(duration), segment_duration)]. *)
Definition window_starts (duration : Q) (segment_duration : Z)
  : result (list Z) :=
  range 0 (int_of_float duration) segment_duration.

(** The windows [(start_time, end_time)] the loop goes through. *)
Definition windows (duration : Q) (segment_duration : Z)
  : result (list (Z * num)) :=
  starts ← window_starts duration segment_duration;
  Ok (map (λ s, (s, window_end duration segment_duration s)) starts).

(** [total_segments = ceil(duration/segment_duration)]. *)
Definition total_segments (duration : Q) (segment_duration : Z) : result Z :=
  ceil_div duration segment_duration.

Definition segment_key (start_time : Z) (end_time : num) : string :=
  "segment_" +:+ pretty start_time +:+ "_" +:+ format end_time.

Definition temp_audio_path (temp_dir : string) (start_time : Z)
    (end_time : num) : string :=
  path_join (path_join temp_dir "audio")
    ("temp_audio_" +:+ pretty start_time +:+ "_" +:+ format end_time
       +:+ ".wav").

Definition temp_output_path (temp_dir : string) (start_time : Z) : string :=
  path_join (path_join temp_dir "video")
    ("temp_output_" +:+ pretty start_time +:+ ".mp4").

(** [process_segment]: the merged clip's path, or [None] when a stage
    failed. *)
Definition process_segment (e : env) (self : dubber) (reference : string)
    (start_time : Z) (end_time : num) : option string :=
  let es_subs := process_video_segment e start_time end_time in
  let temp_audio := temp_audio_path (TEMP_DIR self) start_time end_time in
  if VoiceCloner.returned
       (VoiceCloner.generate_timed_audio (cloner_env e) (voice_cloner self)
          es_subs temp_audio reference 1)
  then
    if merge_succeeds e start_time end_time
    then Some (temp_output_path (TEMP_DIR self) start_time)
    else None
  else None.

(** The output a window resolves to against a ledger: the recorded clip
    if its key is in the ledger, else the clip of a fresh, successful
    [process_segment]; [None] when it has neither. *)
Definition window_output (e : env) (self : dubber) (reference : string)
    (w : Z * num) : option string :=
  match progress self !! segment_key w.1 w.2 with
  | Some data => output data
  | None =>
      let out := process_segment e self reference w.1 w.2 in
      if truthy out then out else None
  end.

(** One iteration, on the state [(dubbed_segments, self)]. *)
Definition segment_step (e : env) (reference : string) (segment_duration : Z)
    (st : list string * dubber) (start_time : Z)
  : result (list string * dubber) :=
  let '(dubbed_segments, self) := st in
  let end_time := window_end (duration e) segment_duration start_time in
  let key := segment_key start_time end_time in
  match progress self !! key with
  | Some data =>
      match output data with
      | Some out => Ok (dubbed_segments ++ [out], self)
      | None => Raise KeyError
      end
  | None =>
      let out := process_segment e self reference start_time end_time in
      if truthy out then
        Ok (dubbed_segments ++ [default "" out],
            save_progress e
              (with_progress self
                 (<[key := {| output := out; completed := true |}]>
                    (progress self))))
      else Ok (dubbed_segments, self)
  end.

Fixpoint segment_loop (e : env) (reference : string) (segment_duration : Z)
    (starts : list Z) (st : list string * dubber)
  : result (list string * dubber) :=
  match starts with
  | [] => Ok st
  | start_time :: rest =>
      st' ← segment_step e reference segment_duration st start_time;
      segment_loop e reference segment_duration rest st'
  end.

(** How a run of [dub_video] ends. *)
Inductive ending :=
  | Cancelled
  | Done
  | Failed (ex : exn).

(** A run: how it ended, the manifest handed to ffmpeg if the
    concatenation was invoked, and the ledger afterwards (not tracked
    when an exception ends the run before the loop is over). *)
Record run := {
  status : ending;
  concatenated : option (list string);
  ledger : option (gmap string SegmentRecord)
}.

Definition failed (ex : exn) : run :=
  {| status := Failed ex; concatenated := None; ledger := None |}.

Definition dub_video (e : env) (self : dubber) (segment_duration : Z) : run :=
  match validate_progress e self with
  | Raise ex => failed ex
  | Ok (self, _) =>
      match reference_audio e with
      | None =>
          {| status := Cancelled; concatenated := None;
             ledger := Some (progress self) |}
      | Some reference =>
          match total_segments (duration e) segment_duration with
          | Raise ex => failed ex
          | Ok _ =>
              match window_starts (duration e) segment_duration with
              | Raise ex => failed ex
              | Ok starts =>
                  match segment_loop e reference segment_duration starts
                          ([], self) with
                  | Raise ex => failed ex
                  | Ok ([], self) =>
                      {| status := Failed (RuntimeError
                           "No segments were successfully processed");
                         concatenated := None;
                         ledger := Some (progress self) |}
                  | Ok (dubbed_segments, self) =>
                      let manifest := map (abspath e) dubbed_segments in
                      {| status :=
                           if ffmpeg_succeeds e manifest then Done
                           else Failed (RuntimeError
                                  "FFmpeg concatenation failed");
                         concatenated := Some manifest;
                         ledger := Some (progress self) |}
                  end
              end
          end
      end
  end.

(** *** Opening a work directory *)

(** [VideoDubber(work_dir)] for an existing directory: [__init__] runs
    [setup_work_directory], which reads [progress.json] when the file is
    there ([on_disk]) and starts from an empty ledger otherwise, and
    [initialize_processors], which points the cloner at the directory.
    Nothing guards the reading: a file that cannot be read makes the
    constructor raise. *)
Definition setup_work_directory (work_dir : string)
    (on_disk : stored (gmap string SegmentRecord)) : result dubber :=
  let opened ledger :=
    {| TEMP_DIR := work_dir;
       voice_cloner := VoiceCloner.set_work_directory work_dir;
       progress := ledger;
       progress_on_disk := on_disk |} in
  match on_disk with
  | Holds ledger => Ok (opened ledger)
  | Absent => Ok (opened ∅)
  | Unreadable ex => Raise ex
  end.

(** The ledger in memory is the one a later [setup_work_directory] would
    load. *)
Definition in_sync (self : dubber) : Prop :=
  match progress_on_disk self with
  | Holds ledger => ledger = progress self
  | Absent => progress self = ∅
  | Unreadable _ => False
  end.

(** The record the loop writes for a window it processed. *)
Definition fresh_record (e : env) (self : dubber) (reference : string)
    (segment_duration start_time : Z) : SegmentRecord :=
  {| output :=
       process_segment e self reference start_time
         (window_end (duration e) segment_duration start_time);
     completed := true |}.

End VideoDubber.

(** ** Concrete worlds used by the examples *)

Module Scenario.
Import Py.

(** Every path exists and the synthesizer raises on every call. *)
Definition mute_world : VoiceCloner.env :=
  {| VoiceCloner.path_exists := λ _, true;
     VoiceCloner.metadata_samples := λ _, Holds ["ref.wav"];
     VoiceCloner.tts_to_file := λ _ _ _, VoiceCloner.TtsRaises |}.

(** Every path exists and every synthesis writes a 1500 ms wav. *)
Definition speaking_world : VoiceCloner.env :=
  {| VoiceCloner.path_exists := λ _, true;
     VoiceCloner.metadata_samples := λ _, Holds ["ref.wav"];
     VoiceCloner.tts_to_file := λ _ _ _, VoiceCloner.TtsWrote 1500 |}.

(** Only the text [b] can be synthesized. *)
Definition stammering_world : VoiceCloner.env :=
  {| VoiceCloner.path_exists := λ _, true;
     VoiceCloner.metadata_samples := λ _, Absent;
     VoiceCloner.tts_to_file := λ text _ _,
       if String.eqb text "b" then VoiceCloner.TtsWrote 1500
       else VoiceCloner.TtsNoFile |}.

(** The subtitles [(0, 2, a)] and [(3, 4, b)]. *)
Definition two_lines : list VoiceCloner.SubtitleSegment :=
  [VoiceCloner.new_subtitle 0 2 "a"; VoiceCloner.new_subtitle 3 4 "b"].

(** A world in which exactly the listed paths exist; every synthesis
    writes a 1500 ms wav. *)
Definition on_disk (files : list string) : VoiceCloner.env :=
  {| VoiceCloner.path_exists := λ p, bool_decide (p ∈ files);
     VoiceCloner.metadata_samples := λ _, Absent;
     VoiceCloner.tts_to_file := λ _ _ _, VoiceCloner.TtsWrote 1500 |}.

(** A video of the given length in which nobody speaks between seconds
    300 and 600: Whisper finds one line in every other window. *)
Definition studio (files : list string) (seconds : Q) : VideoDubber.env :=
  {| VideoDubber.cloner_env := on_disk files;
     VideoDubber.progress_write := Completes;
     VideoDubber.duration := seconds;
     VideoDubber.reference_audio := Some "ref.wav";
     VideoDubber.process_video_segment := λ start_time _,
       if start_time =? 300 then []
       else [VoiceCloner.new_subtitle 0 2 "hola"];
     VideoDubber.merge_succeeds := λ _ _, true;
     VideoDubber.abspath := λ p, "/home/" +:+ p;
     VideoDubber.ffmpeg_succeeds := λ _, true |}.

Definition first_window_files : list string :=
  ["ref.wav"; "work/video/temp_output_0.mp4";
   "work/subtitles/ru_0_300.srt"; "work/subtitles/es_0_300.srt"].

Definition dubber_with (ledger : gmap string VideoDubber.SegmentRecord)
  : VideoDubber.dubber :=
  {| VideoDubber.TEMP_DIR := "work";
     VideoDubber.voice_cloner := VoiceCloner.set_work_directory "work";
     VideoDubber.progress := ledger;
     VideoDubber.progress_on_disk := Holds ledger |}.

Definition clip (path : string) : VideoDubber.SegmentRecord :=
  {| VideoDubber.output := Some path; VideoDubber.completed := true |}.

(** A ledger with one backed entry, one whose clip is gone and one whose
    key is not a segment key. *)
Definition stale_ledger : gmap string VideoDubber.SegmentRecord :=
  <["segment_0_300" := clip "work/video/temp_output_0.mp4"]>
    (<["segment_300_600" := clip "work/video/temp_output_300.mp4"]>
       (<["notes" := clip "work/video/temp_output_0.mp4"]> ∅)).

(** A ledger whose only entry has a key that reads as an infinite
    number. *)
Definition endless_ledger : gmap string VideoDubber.SegmentRecord :=
  {[ "segment_inf_300" := clip "work/video/temp_output_0.mp4" ]}.

(** A translation engine that raises on every call. *)
Definition offline_translator : WhisperProcessor.env :=
  {| WhisperProcessor.translate := λ _, WhisperProcessor.EngineRaises;
     WhisperProcessor.cache_write := Completes |}.

(** A translation engine that answers with blanks. *)
Definition blank_translator : WhisperProcessor.env :=
  {| WhisperProcessor.translate := λ _, WhisperProcessor.EngineReturns "  ";
     WhisperProcessor.cache_write := Completes |}.

(** A processor that has translated [da] before. *)
Definition warm_processor : WhisperProcessor.processor :=
  {| WhisperProcessor.translation_cache := {[ "da" := "si" ]};
     WhisperProcessor.cache_file := Some "work/translation_cache.json";
     WhisperProcessor.cache_on_disk := Holds {[ "da" := "si" ]} |}.

(** A translation engine that answers every text with [hola]. *)
Definition hola_translator : WhisperProcessor.env :=
  {| WhisperProcessor.translate := λ _, WhisperProcessor.EngineReturns " hola ";
     WhisperProcessor.cache_write := Completes |}.

(** What Whisper hears in a window: a line, a blank and another line. *)
Definition heard : list WhisperProcessor.raw_segment :=
  [ {| WhisperProcessor.seg_start := 0; WhisperProcessor.seg_end := 2;
       WhisperProcessor.seg_text := " da" |};
    {| WhisperProcessor.seg_start := 2; WhisperProcessor.seg_end := 3;
       WhisperProcessor.seg_text := "  " |};
    {| WhisperProcessor.seg_start := 3; WhisperProcessor.seg_end := 5;
       WhisperProcessor.seg_text := "net " |} ].

(** A user who types the given lines, then only [n]. *)
Definition typing (lines : list string) : nat → string :=
  λ n, nth n lines "n".

(** A video in which Whisper hears nothing at all. *)
Definition silent_film (seconds : Q) : VideoDubber.env :=
  {| VideoDubber.cloner_env := on_disk ["ref.wav"];
     VideoDubber.progress_write := Completes;
     VideoDubber.duration := seconds;
     VideoDubber.reference_audio := Some "ref.wav";
     VideoDubber.process_video_segment := λ _ _, [];
     VideoDubber.merge_succeeds := λ _ _, true;
     VideoDubber.abspath := λ p, "/home/" +:+ p;
     VideoDubber.ffmpeg_succeeds := λ _, true |}.

(** The subtitles [(0, 2, a)] and [(2.2, 3, b)]: the second starts a
    fifth of a second after the first ends. *)
Definition close_lines : list VoiceCloner.SubtitleSegment :=
  [VoiceCloner.new_subtitle 0 2 "a"; VoiceCloner.new_subtitle (11 # 5) 3 "b"].

(** Every path exists and every synthesis writes a 1500 ms wav that
    cannot be removed afterwards. *)
Definition sticky_world : VoiceCloner.env :=
  {| VoiceCloner.path_exists := λ _, true;
     VoiceCloner.metadata_samples := λ _, Absent;
     VoiceCloner.tts_to_file := λ _ _ _, VoiceCloner.TtsWroteStuck 1500 |}.

(** A world whose metadata files were left torn by a failed write. *)
Definition torn_world : VoiceCloner.env :=
  {| VoiceCloner.path_exists := λ _, true;
     VoiceCloner.metadata_samples := λ _, Unreadable JSONDecodeError;
     VoiceCloner.tts_to_file := λ _ _ _, VoiceCloner.TtsRaises |}.

(** The studio with a video of 700.5 seconds and a [progress.json] whose
    writes end as [w] says. *)
Definition faulty_disk (w : file_write) : VideoDubber.env :=
  {| VideoDubber.cloner_env := on_disk ["ref.wav"];
     VideoDubber.progress_write := w;
     VideoDubber.duration := 1401 # 2;
     VideoDubber.reference_audio := Some "ref.wav";
     VideoDubber.process_video_segment := λ _ _,
       [VoiceCloner.new_subtitle 0 2 "hola"];
     VideoDubber.merge_succeeds := λ _ _, true;
     VideoDubber.abspath := λ p, "/home/" +:+ p;
     VideoDubber.ffmpeg_succeeds := λ _, true |}.

(** Three subtitles given out of order, two of which start together:
    [(3, 4, b)], [(0, 2, a)], [(3, 5, c)]. *)
Definition late_first : list VoiceCloner.SubtitleSegment :=
  [VoiceCloner.new_subtitle 3 4 "b"; VoiceCloner.new_subtitle 0 2 "a";
   VoiceCloner.new_subtitle 3 5 "c"].

(** The work directory after a first run over a video of 700.5 seconds
    got to its last window: the clip and the subtitle files of that
    window, named as the run names them. *)
Definition last_window_files : list string :=
  ["ref.wav"; "work/video/temp_output_600.mp4";
   "work/subtitles/ru_600_700.5.srt"; "work/subtitles/es_600_700.5.srt"].

(** The ledger that run left. *)
Definition last_window_ledger : gmap string VideoDubber.SegmentRecord :=
  {[ "segment_600_700.5" := clip "work/video/temp_output_600.mp4" ]}.

End Scenario.

(** ** Facts about the Python primitives *)

Module PyFacts.
Import Py.

Lemma Qlt_bool_true (a b : Q) : Qlt_bool a b = true ↔ (a < b)%Q.
Proof.
  unfold Qlt_bool. rewrite negb_true_iff.
  split; intros H.
  - apply Qnot_le_lt. intros Hle. apply Qle_bool_iff in Hle. congruence.
  - destruct (Qle_bool b a) eqn:E; [|done].
    apply Qle_bool_iff in E. exfalso. by apply (Qlt_not_le a b).
Qed.

Lemma Qlt_bool_false (a b : Q) : Qlt_bool a b = false ↔ (b <= a)%Q.
Proof.
  unfold Qlt_bool. rewrite negb_false_iff. apply Qle_bool_iff.
Qed.

(** [min] of two durations in milliseconds is the [min] in seconds. *)
Lemma min_Q_scale (a b : Q) :
  (min_Q (a * 1000) (b * 1000) == Qmin a b * 1000)%Q.
Proof.
  unfold min_Q. destruct (Qlt_bool (b * 1000) (a * 1000)) eqn:E.
  - apply Qlt_bool_true in E.
    rewrite Q.min_r; [reflexivity | lra].
  - apply Qlt_bool_false in E.
    rewrite Q.min_l; [reflexivity | lra].
Qed.

(** [round] gives a positive integer exactly above one half. *)
Lemma round_float_pos (q : Q) : 0 < round_float q ↔ (1 # 2 < q)%Q.
Proof.
  destruct q as [a b]. unfold round_float, round_half_even, Qlt.
  cbn [Qnum Qden].
  pose proof (Z.div_mod a (Z.pos b) ltac:(lia)) as Hdm.
  pose proof (Z.mod_pos_bound a (Z.pos b) ltac:(lia)) as Hr.
  set (fl := a / Z.pos b) in *. set (r := a mod Z.pos b) in *.
  destruct (2 * r <? Z.pos b) eqn:E1.
  { apply Z.ltb_lt in E1. split; intros Hq; nia. }
  apply Z.ltb_ge in E1.
  destruct (Z.pos b <? 2 * r) eqn:E2.
  { apply Z.ltb_lt in E2. split; intros Hq; nia. }
  apply Z.ltb_ge in E2.
  destruct (Z.even fl) eqn:Ev.
  - split; intros Hq; nia.
  - assert (fl ≠ 0) by (intros Hz; by rewrite Hz in Ev).
    split; intros Hq; nia.
Qed.

End PyFacts.

(** ** The timed synthesis assembler *)

Module VoiceClonerFacts.
Import Py PyFacts VoiceCloner.

Section Assembler.
Variable e : env.
Variable reference : string.
Variable max_gap : Q.

Local Abbreviation step := (process_subtitle e reference max_gap).
Local Abbreviation loop := (subtitle_loop e reference max_gap).
Local Abbreviation outcome_of i sub :=
  (tts_to_file e (content sub) (temp_speech i) reference).

(** An iteration appends the silence, then the clip if there is one. *)
Lemma process_subtitle_track i sub fa last_end :
  (step i sub (fa, last_end)).1
  = fa ++ leading_silence max_gap (gap_before i sub last_end)
       ++ clip_of e reference i sub.
Proof.
  unfold process_subtitle, clip_of.
  destruct (tts_to_file e _ _ _); simpl; by rewrite ?app_nil_r, <-?app_assoc.
Qed.

(** An iteration advances [last_end] exactly when the wav was written
    and removed. *)
Lemma process_subtitle_last_end i sub st :
  (step i sub st).2
  = match outcome_of i sub with
    | TtsWrote _ => end_ sub
    | _ => st.2
    end.
Proof.
  destruct st as [fa last_end]. unfold process_subtitle.
  by destruct (tts_to_file e _ _ _).
Qed.

Lemma process_subtitle_keeps i sub st p :
  p ∈ st.1 → p ∈ (step i sub st).1.
Proof.
  destruct st as [fa last_end]. rewrite process_subtitle_track. simpl.
  intros. apply elem_of_app. by left.
Qed.

Lemma subtitle_loop_keeps subs : ∀ i st p,
  p ∈ st.1 → p ∈ (loop i subs st).1.
Proof.
  induction subs as [|sub rest IH]; intros i st p Hp; simpl; [done|].
  apply IH. by apply process_subtitle_keeps.
Qed.

(** A subtitle whose synthesis succeeds has its clip in the track built
    by the loop, whatever happened to the others. *)
Lemma subtitle_loop_clip subs : ∀ i st j sub ms,
  subs !! j = Some sub →
  outcome_of (i + j) sub = TtsWrote ms →
  Speech (content sub) ms ∈ (loop i subs st).1.
Proof.
  induction subs as [|s rest IH]; intros i st j sub ms Hj Htts; [done|].
  destruct j as [|j]; simpl in *.
  - injection Hj as ->. apply subtitle_loop_keeps.
    destruct st as [fa last_end]. rewrite process_subtitle_track.
    unfold clip_of. rewrite Nat.add_0_r in Htts. rewrite Htts.
    rewrite !elem_of_app. right. right. apply list_elem_of_here.
  - apply (IH (S i) _ j); [done|].
    by replace (S i + j)%nat with (i + S j)%nat by lia.
Qed.

(** The loop over a list cut in two: the second part starts from the
    state the first part left. *)
Lemma subtitle_loop_app pre : ∀ post i st,
  loop i (pre ++ post) st = loop (i + length pre) post (loop i pre st).
Proof.
  induction pre as [|sub pre IH]; intros post i st; cbn [app length].
  - by rewrite Nat.add_0_r.
  - cbn [subtitle_loop]. rewrite IH. f_equal. lia.
Qed.

(** The loop only appends. *)
Lemma subtitle_loop_extends subs : ∀ i st,
  ∃ after, (loop i subs st).1 = st.1 ++ after ∧ (subs = [] → after = []).
Proof.
  induction subs as [|sub rest IH]; intros i st.
  { exists []. by rewrite app_nil_r. }
  cbn [subtitle_loop]. destruct (IH (S i) (step i sub st)) as (after & -> & _).
  destruct st as [fa last_end]. rewrite process_subtitle_track. cbn [fst].
  eexists. split; [by rewrite <-!app_assoc | done].
Qed.

(** [last_end] after the loop: the end of the last subtitle whose wav was
    written and removed, or the value the loop started with when there
    is none. *)
Lemma subtitle_loop_last_end subs : ∀ i st,
  ((loop i subs st).2 = st.2
   ∧ ∀ j s ms, subs !! j = Some s → outcome_of (i + j) s ≠ TtsWrote ms)
  ∨ ∃ j s ms,
      subs !! j = Some s
      ∧ outcome_of (i + j) s = TtsWrote ms
      ∧ (loop i subs st).2 = end_ s
      ∧ ∀ j' s' ms', (j < j')%nat → subs !! j' = Some s' →
                     outcome_of (i + j') s' ≠ TtsWrote ms'.
Proof.
  induction subs as [|sub rest IH]; intros i st.
  { left. by split. }
  cbn [subtitle_loop].
  destruct (IH (S i) (step i sub st))
    as [[Hlast Hnone]|(j & s & ms & Hj & Hw & Hlast & Hlater)].
  - rewrite Hlast, process_subtitle_last_end.
    destruct (outcome_of i sub) as [| |ms|ms] eqn:Eo.
    1,2,4: left; split; [done|]; intros [|j] s ms' Hj;
      [ injection Hj as <-; rewrite Nat.add_0_r; congruence
      | replace (i + S j)%nat with (S i + j)%nat by lia; by eapply Hnone ].
    right. exists 0%nat, sub, ms. rewrite Nat.add_0_r.
    repeat split; try done.
    intros [|j'] s' ms' Hlt Hj'; [lia|].
    replace (i + S j')%nat with (S i + j')%nat by lia. by eapply Hnone.
  - right. exists (S j), s, ms.
    replace (i + S j)%nat with (S i + j)%nat by lia.
    repeat split; try done.
    intros [|j'] s' ms' Hlt Hj'; [lia|].
    replace (i + S j')%nat with (S i + j')%nat by lia.
    eapply Hlater; [|done]. lia.
Qed.

End Assembler.

Lemma piece_len_silent_nonneg ms : (0 <= piece_len (Silent ms))%Q.
Proof.
  simpl. destruct (Qlt_bool 0 ms) eqn:E; [|lra].
  apply Qlt_bool_true in E. lra.
Qed.

(** C1.  The subtitles [(0, 2, a)] and [(3, 4, b)] with a synthesizer that
    fails on every call: [generate_timed_audio] returns [True] and exports
    a track made of one second of silence, although no subtitle was
    synthesized. *)
Theorem silence_only_track_is_exported :
  (∀ text file speaker,
     tts_to_file Scenario.mute_world text file speaker = TtsRaises)
  ∧ generate_timed_audio Scenario.mute_world new_cloner Scenario.two_lines
      "out.wav" "ref.wav" 1
    = {| returned := true;
         exported := Some ("out.wav", [Silent 1000]) |}.
Proof. split; [done|]. vm_compute. reflexivity. Qed.

(** What [generate_timed_audio] does get right: it exports exactly when it
    returns [True], and then the exported track is the one the loop
    built, of at least one millisecond once rounded. *)
Lemma export_needs_audio e self subs out reference max_gap p t :
  exported (generate_timed_audio e self subs out reference max_gap)
    = Some (p, t) →
  (1 # 2 < track_len t)%Q
  ∧ returned (generate_timed_audio e self subs out reference max_gap) = true.
Proof.
  unfold generate_timed_audio.
  destruct (resolve_reference e self reference); [|done].
  destruct (subtitle_loop _ _ _ _ _ _) as [fa last_end].
  destruct (0 <? audio_len fa) eqn:E; [|done].
  simpl. intros [= <- <-]. split; [|done].
  apply round_float_pos. by apply Z.ltb_lt.
Qed.

Lemma exported_is_built e self subs out rap reference max_gap p t :
  resolve_reference e self rap = Some reference →
  exported (generate_timed_audio e self subs out rap max_gap) = Some (p, t) →
  t = (subtitle_loop e reference max_gap 0 (sorted_by_start subs)
         ([], 0%Q)).1.
Proof.
  unfold generate_timed_audio. intros ->.
  destruct (subtitle_loop _ _ _ _ _ _) as [fa last_end].
  destruct (0 <? audio_len fa); [|done]. by intros [= _ <-].
Qed.

(** A track of more than half a millisecond is exported. *)
Lemma generate_timed_audio_exports e self subs out reference max_gap :
  path_exists e reference = true →
  (1 # 2 < track_len (subtitle_loop e reference max_gap 0
                        (sorted_by_start subs) ([], 0%Q)).1)%Q →
  generate_timed_audio e self subs out reference max_gap
  = {| returned := true;
       exported :=
         Some (out, (subtitle_loop e reference max_gap 0
                       (sorted_by_start subs) ([], 0%Q)).1) |}.
Proof.
  intros Href Hlen. unfold generate_timed_audio, resolve_reference.
  rewrite Href.
  destruct (subtitle_loop _ _ _ _ _ _) as [fa last_end]. cbn [fst] in *.
  apply round_float_pos, Z.ltb_lt in Hlen. unfold audio_len.
  by rewrite Hlen.
Qed.

Lemma two_lines_sorted :
  sorted_by_start Scenario.two_lines
  = [ {| start := 0; end_ := 2; content := "a" |};
      {| start := 3; end_ := 4; content := "b" |} ].
Proof. vm_compute. reflexivity. Qed.

(** C3.  Iteration [0] appends no silence.  An iteration [i > 0] whose
    gap [start - last_end] is positive appends a silence of
    [min(gap, max_gap)] seconds and then the clip; with a gap that is not
    positive it appends the clip alone.  For the subtitles [(0, 2, a)] and
    [(3, 4, b)] with [max_gap = 1] and both syntheses succeeding, the
    exported track is the clip of [a], 1000 ms of silence, the clip of
    [b].  In a whole call, the [last_end] of an iteration is the one the
    loop over the subtitles sorted before it has left: the track is what
    that loop built, then the silence measured from that [last_end],
    then the clip, then what the later subtitles add; and right after a
    subtitle whose wav was written and removed, [last_end] is that
    subtitle's end. *)
Theorem gap_silence_is_capped e reference max_gap i sub fa last_end :
  let gap := (start sub - last_end)%Q in
  let fa' := (process_subtitle e reference max_gap i sub (fa, last_end)).1 in
  (i = 0%nat → fa' = fa ++ clip_of e reference i sub)
  ∧ ((0 < i)%nat → (0 < gap)%Q →
     ∃ ms, (ms == Qmin gap max_gap * 1000)%Q
           ∧ fa' = fa ++ Silent ms :: clip_of e reference i sub)
  ∧ ((0 < i)%nat → (gap <= 0)%Q → fa' = fa ++ clip_of e reference i sub)
  ∧ (∀ self out a b,
       path_exists e reference = true →
       tts_to_file e "a" (temp_speech 0) reference = TtsWrote a →
       tts_to_file e "b" (temp_speech 1) reference = TtsWrote b →
       (0 <= a)%Q → (0 <= b)%Q →
       generate_timed_audio e self Scenario.two_lines out reference 1
       = {| returned := true;
            exported :=
              Some (out, [Speech "a" a; Silent 1000; Speech "b" b]) |})
  ∧ (∀ self subtitles out reference_audio_path pre sub' post,
       resolve_reference e self reference_audio_path = Some reference →
       sorted_by_start subtitles = pre ++ sub' :: post →
       let before := subtitle_loop e reference max_gap 0 pre ([], 0%Q) in
       ∃ after,
         (subtitle_loop e reference max_gap 0 (sorted_by_start subtitles)
            ([], 0%Q)).1
         = before.1
             ++ leading_silence max_gap
                  (gap_before (length pre) sub' before.2)
             ++ clip_of e reference (length pre) sub' ++ after
         ∧ (post = [] → after = [])
         ∧ ∀ p t,
             exported (generate_timed_audio e self subtitles out
                         reference_audio_path max_gap) = Some (p, t) →
             t = before.1
                   ++ leading_silence max_gap
                        (gap_before (length pre) sub' before.2)
                   ++ clip_of e reference (length pre) sub' ++ after)
  ∧ (∀ pre prev ms st,
       tts_to_file e (content prev) (temp_speech (length pre)) reference
       = TtsWrote ms →
       (subtitle_loop e reference max_gap 0 (pre ++ [prev]) st).2
       = end_ prev).
Proof.
  intros gap fa'. subst fa'. rewrite process_subtitle_track.
  split; [|split; [|split; [|split; [|split]]]].
  - intros ->. simpl. unfold leading_silence.
    by replace (Qlt_bool 0 0) with false by done.
  - intros Hi Hgap. unfold gap_before.
    replace (0 <? i)%nat with true by (symmetry; by apply Nat.ltb_lt).
    unfold leading_silence. fold gap.
    replace (Qlt_bool 0 gap) with true
      by (symmetry; by apply Qlt_bool_true).
    eexists. split; [apply min_Q_scale | done].
  - intros Hi Hgap. unfold gap_before.
    replace (0 <? i)%nat with true by (symmetry; by apply Nat.ltb_lt).
    unfold leading_silence. fold gap.
    by replace (Qlt_bool 0 gap) with false
      by (symmetry; by apply Qlt_bool_false).
  - intros self out a b Href Ha Hb Hna Hnb.
    assert ((subtitle_loop e reference 1 0
               (sorted_by_start Scenario.two_lines) ([], 0%Q)).1
            = [Speech "a" a; Silent 1000; Speech "b" b]) as Hbuilt.
    { rewrite two_lines_sorted.
      set (s1 := {| start := 0; end_ := 2; content := "a" |}).
      set (s2 := {| start := 3; end_ := 4; content := "b" |}).
      cbn [subtitle_loop].
      unfold process_subtitle at 2.
      change (content s1) with "a". change (end_ s1) with 2%Q. rewrite Ha.
      change (leading_silence 1 (gap_before 0 s1 0)) with ([] : track).
      unfold process_subtitle.
      change (content s2) with "b". rewrite Hb.
      by change (leading_silence 1 (gap_before 1 s2 2)) with [Silent 1000]. }
    rewrite generate_timed_audio_exports; [by rewrite Hbuilt | done |].
    rewrite Hbuilt. unfold track_len. cbn [foldr piece_len].
    replace (Qlt_bool 0 1000) with true by done. lra.
  - intros self subtitles out rap pre sub' post Href Hsorted before.
    rewrite Hsorted.
    rewrite (subtitle_loop_app e reference max_gap pre (sub' :: post)).
    cbn [subtitle_loop]. fold before.
    destruct (subtitle_loop_extends e reference max_gap post
                (S (0 + length pre))
                (process_subtitle e reference max_gap (0 + length pre) sub'
                   before)) as (after & Hafter & Hnil).
    exists after. rewrite Hafter. cbn [Nat.add].
    destruct before as [fb lb] eqn:Eb. rewrite process_subtitle_track.
    cbn [fst snd]. rewrite <-!app_assoc.
    split; [done|]. split; [done|].
    intros p t Hexp.
    rewrite (exported_is_built _ _ _ _ _ _ _ _ _ Href Hexp), Hsorted.
    rewrite (subtitle_loop_app e reference max_gap pre (sub' :: post)).
    cbn [subtitle_loop]. fold before. rewrite Eb, Hafter. cbn [Nat.add].
    rewrite process_subtitle_track. cbn [fst]. by rewrite <-!app_assoc.
  - intros pre prev ms st Hms.
    rewrite (subtitle_loop_app e reference max_gap pre [prev]).
    cbn [subtitle_loop]. rewrite process_subtitle_last_end.
    cbn [Nat.add]. by rewrite Hms.
Qed.

(** Two subtitles a fifth of a second apart: the silence between their
    clips is 200 ms, measured from the end of the first. *)
Lemma gap_silence_is_capped_witness :
  (process_subtitle Scenario.speaking_world "ref.wav" 1 1
     {| start := 3; end_ := 4; content := "b" |} ([Speech "a" 1500], 2%Q)).1
  = [Speech "a" 1500; Silent 1000; Speech "b" 1500]
  ∧ generate_timed_audio Scenario.speaking_world new_cloner
      Scenario.two_lines "out.wav" "ref.wav" 1
    = {| returned := true;
         exported :=
           Some ("out.wav",
                 [Speech "a" 1500; Silent 1000; Speech "b" 1500]) |}
  ∧ ∃ ms,
      (ms == 200)%Q
      ∧ exported (generate_timed_audio Scenario.speaking_world new_cloner
                    Scenario.close_lines "out.wav" "ref.wav" 1)
        = Some ("out.wav", [Speech "a" 1500; Silent ms; Speech "b" 1500]).
Proof.
  destruct (gap_silence_is_capped Scenario.speaking_world "ref.wav" 1 1
              {| start := 3; end_ := 4; content := "b" |}
              [Speech "a" 1500] 2%Q) as (_ & _ & _ & H & Hcall & _).
  split; [reflexivity|]. split.
  - apply H; [reflexivity | reflexivity | reflexivity | | ];
      vm_compute; discriminate.
  - destruct (Hcall new_cloner Scenario.close_lines "out.wav" "ref.wav"
                [{| start := 0; end_ := 2; content := "a" |}]
                {| start := 11 # 5; end_ := 3; content := "b" |} [])
      as (after & _ & Hafter & Hexp); [reflexivity | reflexivity |].
    rewrite (Hafter eq_refl) in Hexp.
    exists (1000 # 5)%Q. split; [reflexivity|].
    destruct (exported (generate_timed_audio Scenario.speaking_world
                          new_cloner Scenario.close_lines "out.wav"
                          "ref.wav" 1)) as [[p t]|] eqn:E;
      [|vm_compute in E; discriminate].
    rewrite (Hexp p t eq_refl).
    vm_compute in E. injection E as <- _. reflexivity.
Defined.

Lemma track_len_nonneg (t : track) :
  (∀ q, q ∈ t → (0 <= piece_len q)%Q) → (0 <= track_len t)%Q.
Proof.
  induction t as [|r t IH]; intros Hpos.
  - unfold track_len. simpl. lra.
  - assert (0 <= piece_len r)%Q by (apply Hpos; apply list_elem_of_here).
    assert (0 <= track_len t)%Q.
    { apply IH. intros x Hx. apply Hpos. by apply list_elem_of_further. }
    unfold track_len in *. simpl. lra.
Qed.

Lemma track_len_elem (t : track) (p : piece) :
  (∀ q, q ∈ t → (0 <= piece_len q)%Q) →
  p ∈ t → (piece_len p <= track_len t)%Q.
Proof.
  induction t as [|q t IH]; intros Hpos Hp.
  - by apply elem_of_nil in Hp.
  - assert (∀ x, x ∈ t → (0 <= piece_len x)%Q) as Hpos'.
    { intros x Hx. apply Hpos. by apply list_elem_of_further. }
    pose proof (track_len_nonneg t Hpos') as Htl.
    assert (0 <= piece_len q)%Q by (apply Hpos; apply list_elem_of_here).
    apply elem_of_cons in Hp as [->|Hp].
    + unfold track_len in *. simpl. lra.
    + pose proof (IH Hpos' Hp). unfold track_len in *. simpl. lra.
Qed.

Section Lengths.
Variable e : env.
Variable reference : string.
Variable max_gap : Q.
Hypothesis clips_nonneg : ∀ text file ms,
  tts_to_file e text file reference = TtsWrote ms
  ∨ tts_to_file e text file reference = TtsWroteStuck ms →
  (0 <= ms)%Q.

Lemma process_subtitle_nonneg i sub st :
  (∀ q, q ∈ st.1 → (0 <= piece_len q)%Q) →
  ∀ q, q ∈ (process_subtitle e reference max_gap i sub st).1 →
       (0 <= piece_len q)%Q.
Proof.
  destruct st as [fa last_end]. intros Hst q.
  rewrite process_subtitle_track. simpl in Hst.
  rewrite !elem_of_app. intros [Hq|[Hq|Hq]]; [by apply Hst| |].
  - unfold leading_silence in Hq. destruct (Qlt_bool 0 _).
    + apply list_elem_of_singleton in Hq as ->. apply piece_len_silent_nonneg.
    + by apply elem_of_nil in Hq.
  - unfold clip_of in Hq.
    destruct (tts_to_file e _ _ _) eqn:E; try by apply elem_of_nil in Hq.
    all: apply list_elem_of_singleton in Hq as ->; simpl; eauto.
Qed.

Lemma subtitle_loop_nonneg subs : ∀ i st,
  (∀ q, q ∈ st.1 → (0 <= piece_len q)%Q) →
  ∀ q, q ∈ (subtitle_loop e reference max_gap i subs st).1 →
       (0 <= piece_len q)%Q.
Proof.
  induction subs as [|sub rest IH]; intros i st Hst; simpl; [done|].
  apply IH. by apply process_subtitle_nonneg.
Qed.

End Lengths.




(** C9.  Without a work directory [load_voice_samples] raises.  With one,
    it returns a list exactly when the profile's metadata file can be
    read and every sample it names exists, that list being the whole
    sample list; it raises exactly when the metadata file is there but
    reading it raises, with that exception; otherwise (no metadata file,
    or a sample missing) it returns [None]. *)
Theorem load_voice_samples_all_or_nothing e self voice_name :
  (truthy (samples_dir self) = false →
   load_voice_samples e self voice_name
   = Raise (RuntimeError "Work directory not set"))
  ∧ (∀ approved,
       truthy (samples_dir self) = true →
       approved_dir self = Some approved →
       let metadata_path :=
         path_join (path_join approved voice_name) "metadata.json" in
       (∀ samples,
          load_voice_samples e self voice_name = Ok (Some samples)
          ↔ metadata_samples e metadata_path = Holds samples
            ∧ Forall (λ s, path_exists e s = true) samples)
       ∧ (∀ ex,
            load_voice_samples e self voice_name = Raise ex
            ↔ metadata_samples e metadata_path = Unreadable ex)
       ∧ (load_voice_samples e self voice_name = Ok None
          ↔ metadata_samples e metadata_path = Absent
            ∨ ∃ samples,
                metadata_samples e metadata_path = Holds samples
                ∧ ¬ Forall (λ s, path_exists e s = true) samples)).
Proof.
  split.
  - intros H. unfold load_voice_samples. by rewrite H.
  - intros approved Hs Ha metadata_path. subst metadata_path.
    unfold load_voice_samples. rewrite Hs, Ha. simpl.
    destruct (metadata_samples e _) as [|ex'|l] eqn:Em.
    + split; [|split].
      * intros samples. split; [done|]. by intros [? _].
      * intros ex. by split.
      * split; [by left | done].
    + split; [|split].
      * intros samples. split; [done|]. by intros [? _].
      * intros ex. split; by intros [= ->].
      * split; [done|]. by intros [?|(? & ? & _)].
    + assert (forallb (path_exists e) l = true
              ↔ Forall (λ s, path_exists e s = true) l) as Hall.
      { rewrite forallb_forall, Forall_forall.
        split; intros H x Hx; apply H; by apply list_elem_of_In. }
      destruct (forallb (path_exists e) l) eqn:Ef.
      * split; [|split].
        -- intros samples. split.
           ++ intros [= <-]. split; [done|]. by apply Hall.
           ++ by intros [[= <-] _].
        -- intros ex. by split.
        -- split; [done|]. intros [?|(samples & [= <-] & Hnot)]; [done|].
           destruct Hnot. by apply Hall.
      * split; [|split].
        -- intros samples. split; [done|].
           intros [[= <-] H]. apply Hall in H. congruence.
        -- intros ex. by split.
        -- split; [|done]. intros _. right. exists l. split; [done|].
           intros H. apply Hall in H. congruence.
Qed.

Lemma load_voice_samples_all_or_nothing_witness :
  load_voice_samples Scenario.mute_world (set_work_directory "work") "default"
  = Ok (Some ["ref.wav"])
  ∧ load_voice_samples Scenario.torn_world (set_work_directory "work")
      "default"
    = Raise JSONDecodeError.
Proof.
  split.
  - destruct (load_voice_samples_all_or_nothing Scenario.mute_world
                (set_work_directory "work") "default") as [_ H].
    destruct (H "work/voice_references/approved" eq_refl eq_refl)
      as (Hiff & _ & _).
    apply Hiff. split; [reflexivity|].
    apply Forall_cons. split; [reflexivity | apply Forall_nil_2].
  - destruct (load_voice_samples_all_or_nothing Scenario.torn_world
                (set_work_directory "work") "default") as [_ H].
    destruct (H "work/voice_references/approved" eq_refl eq_refl)
      as (_ & Hiff & _).
    by apply Hiff.
Defined.

(** C9, as first stated, fails on a cloner that was just constructed: the
    metadata and the samples are all there, and the call neither returns
    the list nor [None].  It fails as well, with the work directory set,
    on a metadata file that a failed write left torn: the file exists,
    and the call raises instead of returning [None]. *)
Lemma load_voice_samples_unset_directory :
  load_voice_samples Scenario.mute_world new_cloner "default"
  = Raise (RuntimeError "Work directory not set")
  ∧ load_voice_samples Scenario.mute_world new_cloner "default" ≠ Ok None
  ∧ load_voice_samples Scenario.mute_world new_cloner "default"
    ≠ Ok (Some ["ref.wav"])
  ∧ load_voice_samples Scenario.torn_world (set_work_directory "work")
      "default"
    = Raise JSONDecodeError.
Proof. repeat split; discriminate. Qed.

End VoiceClonerFacts.

(** ** The translation cache *)

Module WhisperFacts.
Import Py WhisperProcessor.

Lemma save_translation_cache_cache e self :
  translation_cache (save_translation_cache e self) = translation_cache self.
Proof.
  unfold save_translation_cache.
  by destruct (_ && _).
Qed.

(** C10.  The engine is called exactly when the text is non-empty and not
    in the cache.  When it is called and raises, or answers with nothing
    but white space, [translate_to_spanish] returns the text it was given
    and leaves the processor (cache and cache file) as it was.  The cache
    changes only by recording a non-empty translation that the engine
    returned for this text. *)
Theorem failed_translation_returns_input e self text :
  let r := translate_to_spanish e self text in
  (engine_calls r = [text]
   ↔ text ≠ "" ∧ translation_cache self !! text = None)
  ∧ (engine_calls r = [text] →
     translate e text = EngineRaises
     ∨ (∃ raw, translate e text = EngineReturns raw ∧ strip raw = "") →
     returned r = text ∧ after r = self)
  ∧ (translation_cache (after r) ≠ translation_cache self →
     ∃ raw, translate e text = EngineReturns raw
            ∧ strip raw ≠ ""
            ∧ returned r = strip raw
            ∧ translation_cache (after r)
              = <[text := strip raw]> (translation_cache self)).
Proof.
  intros r. subst r. unfold translate_to_spanish.
  destruct text as [|c text].
  { split; [|split]; simpl; [|done|done]. split; [done|]. by intros [? _]. }
  destruct (translation_cache self !! String c text) as [cached|] eqn:Ec.
  { split; [|split]; simpl; [|done|done]. split; [done|]. by intros [_ ?]. }
  destruct (translate e (String c text)) as [|raw] eqn:Et.
  { split; [|split]; simpl; [done|done|done]. }
  destruct (strip raw) as [|c' t'] eqn:Es.
  { split; [|split]; simpl; [done|done|done]. }
  split; [|split]; simpl.
  - done.
  - intros _ [?|(raw' & [= <-] & Hblank)]; [done|congruence].
  - intros _. exists raw. rewrite Es. repeat split; try done.
    destruct (truthy (cache_file self)); [|done].
    by rewrite save_translation_cache_cache.
Qed.

Lemma failed_translation_returns_input_witness :
  (returned (translate_to_spanish Scenario.offline_translator
               Scenario.warm_processor "net") = "net"
   ∧ after (translate_to_spanish Scenario.offline_translator
              Scenario.warm_processor "net") = Scenario.warm_processor)
  ∧ (returned (translate_to_spanish Scenario.blank_translator
                 Scenario.warm_processor "net") = "net"
     ∧ after (translate_to_spanish Scenario.blank_translator
                Scenario.warm_processor "net") = Scenario.warm_processor).
Proof.
  split.
  - destruct (failed_translation_returns_input Scenario.offline_translator
                Scenario.warm_processor "net") as (_ & H & _).
    apply H; [reflexivity | left; reflexivity].
  - destruct (failed_translation_returns_input Scenario.blank_translator
                Scenario.warm_processor "net") as (_ & H & _).
    apply H; [reflexivity | right; exists "  "; split; reflexivity].
Defined.

End WhisperFacts.

(** ** The progress ledger *)

Module LedgerFacts.
Import Py VideoDubber.

Lemma guarded_int_Keep s k :
  guarded_int s k = Keep ↔ ∃ z, int_float s = Ok z ∧ k z = Keep.
Proof.
  unfold guarded_int. destruct (int_float s) as [z|ex].
  - split; [by exists z | by intros (z' & [= <-] & ?)].
  - split; [by destruct ex | by intros (? & ? & ?)].
Qed.

(** [check_entry] keeps exactly the entries that pass every check. *)
Lemma check_entry_Keep e temp_dir segment_key data :
  check_entry e temp_dir segment_key data = Keep
  ↔ backed_entry e temp_dir segment_key data.
Proof.
  unfold check_entry, backed_entry.
  destruct (output data) as [[|c out]|] eqn:Eo; simpl.
  - split; [done|]. by intros (? & ? & ? & ? & ? & ? & [= <-] & ? & _).
  - destruct (exists_ e (String c out)) eqn:Ex.
    + destruct (split "_" segment_key) as [|a [|b [|c' [|? ?]]]] eqn:Es;
        try (split; [done | by intros (?&?&?&?&?&?&?&?&?&?&_)]).
      rewrite guarded_int_Keep. setoid_rewrite guarded_int_Keep. split.
      * intros (st & Hst & en & Hen & Hsub).
        destruct (exists_ e (subtitle_path _ "ru" _ _)) eqn:Eru; [|done].
        destruct (exists_ e (subtitle_path _ "es" _ _)) eqn:Ees; [|done].
        by exists (String c out), a, b, c', st, en.
      * intros (o & a' & b' & c'' & st & en & [= <-] & _ & _ & [= <- <- <-]
                & Hst & Hen & Hru & Hes).
        exists st. split; [done|]. exists en. split; [done|].
        by rewrite Hru, Hes.
    + split; [done|].
      intros (o & ? & ? & ? & ? & ? & [= <-] & _ & Hex & _). congruence.
  - split; [done|]. by intros (? & ? & ? & ? & ? & ? & ? & _).
Qed.

Lemma valid_progress_lookup e self k d :
  valid_progress e self !! k = Some d
  ↔ progress self !! k = Some d ∧ check_entry e (TEMP_DIR self) k d = Keep.
Proof. unfold valid_progress. by rewrite map_lookup_filter_Some. Qed.

Lemma nothing_invalid e self :
  invalid_segments e self = 0%nat → valid_progress e self = progress self.
Proof.
  unfold invalid_segments. intros H.
  apply map_subseteq_size_eq; [apply map_filter_subseteq|].
  fold (valid_progress e self). lia.
Qed.

(** No exception leaves the loop when no entry lets one escape. *)
Lemma escaping_nil e self :
  (∀ k d ex, progress self !! k = Some d →
             check_entry e (TEMP_DIR self) k d ≠ Escapes ex) →
  escaping e self = [].
Proof.
  intros H. unfold escaping.
  destruct (omap _ _) as [|ex l] eqn:E; [done|]. exfalso.
  assert (ex ∈ ex :: l) as Hin by apply list_elem_of_here.
  rewrite <-E in Hin. apply list_elem_of_omap in Hin as ([k d] & Hkd & Hex).
  apply elem_of_map_to_list in Hkd. simpl in Hex.
  destruct (check_entry e (TEMP_DIR self) k d) eqn:Ec; try done.
  injection Hex as ->. by eapply H.
Qed.

(** What a call of [validate_progress] that returns has done. *)
Lemma validate_progress_Ok e self self' ret :
  validate_progress e self = Ok (self', ret) →
  ret = true
  ∧ TEMP_DIR self' = TEMP_DIR self
  ∧ voice_cloner self' = voice_cloner self
  ∧ progress self' = valid_progress e self.
Proof.
  unfold validate_progress. case_bool_decide as Hempty.
  { intros [= <- <-]. repeat split.
    unfold valid_progress. rewrite Hempty. by rewrite map_filter_empty. }
  destruct (escaping e self); [|done].
  destruct (0 <? invalid_segments e self)%nat eqn:Ei.
  - intros [= <- <-]. unfold save_progress.
    done.
  - intros [= <- <-]. repeat split. symmetry. apply nothing_invalid.
    apply Nat.ltb_ge in Ei. lia.
Qed.

Lemma valid_progress_fixpoint e self self' :
  TEMP_DIR self' = TEMP_DIR self →
  progress self' = valid_progress e self →
  valid_progress e self' = progress self'.
Proof.
  intros Ht Hp. unfold valid_progress at 1. rewrite Ht, Hp.
  apply map_filter_id. intros k d Hkd.
  apply valid_progress_lookup in Hkd as [_ Hk]. done.
Qed.

(** [validate_progress] returns, and returns [True], when no entry lets
    an exception escape. *)
Lemma validate_progress_returns e self :
  (∀ k d ex, progress self !! k = Some d →
             check_entry e (TEMP_DIR self) k d ≠ Escapes ex) →
  ∃ self', validate_progress e self = Ok (self', true).
Proof.
  intros Hesc. unfold validate_progress. case_bool_decide; [by eexists|].
  rewrite (escaping_nil e self Hesc).
  destruct (0 <? invalid_segments e self)%nat; by eexists.
Qed.

(** C5.  When no entry lets an exception escape, [validate_progress]
    returns [True]; the ledger it leaves holds exactly the entries that
    pass every check (existing output, key of three parts with numeric
    second and third part, both subtitle files present), and the number it
    reports as invalid is the number of entries dropped.  If that number
    is positive the reduced ledger is written to [progress.json] (the
    file holds it when the write completes, is left alone when it cannot
    be opened, and is left torn when the write fails after the file was
    truncated); if it is zero, nothing is written and the dubber is
    unchanged. *)
Theorem validate_progress_keeps_backed_entries e self :
  (∀ k d ex, progress self !! k = Some d →
             check_entry e (TEMP_DIR self) k d ≠ Escapes ex) →
  ∃ self',
    validate_progress e self = Ok (self', true)
    ∧ (∀ k d, progress self' !! k = Some d
              ↔ progress self !! k = Some d
                ∧ backed_entry e (TEMP_DIR self) k d)
    ∧ invalid_segments e self
      = (size (progress self) - size (progress self'))%nat
    ∧ ((0 < invalid_segments e self)%nat →
       progress_on_disk self'
       = match progress_write e with
         | Completes => Holds (progress self')
         | Refused => progress_on_disk self
         | Tears => Unreadable JSONDecodeError
         end)
    ∧ (invalid_segments e self = 0%nat → self' = self).
Proof.
  intros Hesc.
  destruct (validate_progress_returns e self Hesc) as [self' Hv].
  exists self'. split; [done|].
  pose proof (validate_progress_Ok e self self' true Hv) as (_ & Ht & _ & Hp).
  split; [|split; [|split]].
  - intros k d. rewrite Hp, valid_progress_lookup.
    by rewrite check_entry_Keep.
  - unfold invalid_segments. by rewrite Hp.
  - intros Hpos. revert Hv. unfold validate_progress.
    case_bool_decide as Hempty.
    { exfalso. revert Hpos. unfold invalid_segments, valid_progress.
      rewrite Hempty, map_filter_empty, map_size_empty. lia. }
    rewrite (escaping_nil e self Hesc).
    replace (0 <? invalid_segments e self)%nat with true
      by (symmetry; by apply Nat.ltb_lt).
    intros [= <-]. unfold save_progress.
    done.
  - intros Hzero. revert Hv. unfold validate_progress.
    case_bool_decide; [by intros [= <-]|].
    rewrite (escaping_nil e self Hesc).
    replace (0 <? invalid_segments e self)%nat with false
      by (symmetry; apply Nat.ltb_ge; lia).
    by intros [= <-].
Qed.

Lemma stale_ledger_raises_nothing k d ex :
  Scenario.stale_ledger !! k = Some d →
  check_entry (Scenario.studio Scenario.first_window_files 700) "work" k d
  ≠ Escapes ex.
Proof.
  unfold Scenario.stale_ledger. intros H.
  repeat (apply lookup_insert_Some in H as [[<- <-]|[_ H]];
          [vm_compute; discriminate|]).
  by rewrite lookup_empty in H.
Qed.

Lemma validate_progress_keeps_backed_entries_witness :
  ∃ self',
    validate_progress (Scenario.studio Scenario.first_window_files 700)
      (Scenario.dubber_with Scenario.stale_ledger) = Ok (self', true)
    ∧ progress self' !! "segment_0_300"
      = Some (Scenario.clip "work/video/temp_output_0.mp4")
    ∧ progress self' !! "segment_300_600" = None
    ∧ progress self' !! "notes" = None.
Proof.
  destruct (validate_progress_keeps_backed_entries
              (Scenario.studio Scenario.first_window_files 700)
              (Scenario.dubber_with Scenario.stale_ledger)
              stale_ledger_raises_nothing)
    as (self' & Hv & _).
  exists self'. split; [exact Hv|].
  vm_compute in Hv. injection Hv as <-.
  vm_compute. repeat split.
Defined.

(** C5, as first stated, fails on the count: two entries are dropped and
    the value returned is [True], which as a number is 1. *)
Lemma validate_progress_returns_True :
  invalid_segments (Scenario.studio Scenario.first_window_files 700)
    (Scenario.dubber_with Scenario.stale_ledger) = 2%nat
  ∧ ∃ self' ret,
      validate_progress (Scenario.studio Scenario.first_window_files 700)
        (Scenario.dubber_with Scenario.stale_ledger) = Ok (self', ret)
      ∧ ret = true
      ∧ Z.b2z ret ≠ 2.
Proof.
  split; [vm_compute; reflexivity|].
  eexists _, _. split; [vm_compute; reflexivity|]. split; [done|]. done.
Qed.

(** What the checks do not catch: [int(float("inf"))] raises
    [OverflowError], which is neither [ValueError] nor [IndexError], so
    the exception leaves [validate_progress]. *)
Lemma infinite_key_escapes :
  validate_progress (Scenario.studio Scenario.first_window_files 700)
    (Scenario.dubber_with Scenario.endless_ledger)
  = Raise OverflowError.
Proof. vm_compute. reflexivity. Qed.

(** C8.  A second [validate_progress] right after one that returned finds
    nothing to drop and changes nothing; and the first call does return
    whenever no entry lets an exception escape. *)
Theorem validate_progress_idempotent e self :
  (∀ self' ret,
     validate_progress e self = Ok (self', ret) →
     validate_progress e self' = Ok (self', true)
     ∧ invalid_segments e self' = 0%nat)
  ∧ ((∀ k d ex, progress self !! k = Some d →
                check_entry e (TEMP_DIR self) k d ≠ Escapes ex) →
     ∃ self', validate_progress e self = Ok (self', true)).
Proof.
  split.
  - intros self' ret Hv.
    apply validate_progress_Ok in Hv as (_ & Ht & _ & Hp).
    pose proof (valid_progress_fixpoint e self self' Ht Hp) as Hfix.
    assert (invalid_segments e self' = 0%nat) as Hzero.
    { unfold invalid_segments. rewrite Hfix. lia. }
    split; [|done].
    unfold validate_progress. case_bool_decide; [done|].
    rewrite escaping_nil.
    + by rewrite Hzero.
    + intros k d ex Hkd.
      rewrite <-Hfix in Hkd. apply valid_progress_lookup in Hkd as [_ Hk].
      by rewrite Hk.
  - apply validate_progress_returns.
Qed.

Lemma validate_progress_idempotent_witness :
  ∃ self',
    validate_progress (Scenario.studio Scenario.first_window_files 700)
      (Scenario.dubber_with Scenario.stale_ledger) = Ok (self', true)
    ∧ validate_progress (Scenario.studio Scenario.first_window_files 700)
        self' = Ok (self', true)
    ∧ invalid_segments (Scenario.studio Scenario.first_window_files 700)
        self' = 0%nat.
Proof.
  destruct (validate_progress_idempotent
              (Scenario.studio Scenario.first_window_files 700)
              (Scenario.dubber_with Scenario.stale_ledger))
    as [Hsecond Hfirst].
  destruct (Hfirst stale_ledger_raises_nothing) as [self' Hv].
  exists self'. split; [exact Hv|].
  exact (Hsecond self' true Hv).
Defined.

End LedgerFacts.

(** ** Segment keys and windows *)

Module KeyFacts.
Import Py VideoDubber.

(** Digits are the only characters [pretty] prints for a number, apart
    from the sign. *)
Lemma pretty_N_go_no_char c x : ∀ s,
  (∀ d, pretty_N_char d ≠ c) →
  has_char c s = false → has_char c (pretty_N_go x s) = false.
Proof.
  induction (N.lt_wf_0 x) as [x _ IH]. intros s Hc Hs.
  destruct (decide (x = 0)%N) as [->|Hx]; [by rewrite pretty_N_go_0|].
  rewrite pretty_N_go_step by lia.
  apply IH; [apply N.div_lt; lia | done |].
  cbn [has_char]. rewrite Hs, orb_false_r. apply Ascii.eqb_neq, Hc.
Qed.

Lemma pretty_N_no_char c (x : N) :
  (∀ d, pretty_N_char d ≠ c) → has_char c (pretty x) = false.
Proof.
  intros Hc. unfold pretty, pretty_N. case_decide.
  - cbn [has_char]. rewrite orb_false_r. apply Ascii.eqb_neq, (Hc 0%N).
  - by apply pretty_N_go_no_char.
Qed.

Lemma pretty_Z_no_char c (z : Z) :
  (∀ d, pretty_N_char d ≠ c) → c ≠ "-"%char →
  has_char c (pretty z) = false.
Proof.
  intros Hc Hdash.
  destruct z as [|p|p]; unfold pretty, pretty_Z, pretty, pretty_positive.
  - cbn [has_char]. rewrite orb_false_r. apply Ascii.eqb_neq, (Hc 0%N).
  - by apply pretty_N_no_char.
  - change (has_char c (String "-" (pretty (N.pos p))) = false).
    cbn [has_char].
    rewrite (pretty_N_no_char c (N.pos p) Hc), orb_false_r.
    apply Ascii.eqb_neq. congruence.
Qed.

Lemma pretty_Z_no_underscore (z : Z) : has_char "_" (pretty z) = false.
Proof.
  apply pretty_Z_no_char; [|done].
  intros d. unfold pretty_N_char. repeat case_match; discriminate.
Qed.

Lemma pretty_Z_no_dot (z : Z) : has_char "." (pretty z) = false.
Proof.
  apply pretty_Z_no_char; [|done].
  intros d. unfold pretty_N_char. repeat case_match; discriminate.
Qed.

(** Two strings that agree up to their first [c] have the same prefix. *)
Lemma first_occurrence c : ∀ a a' x y,
  has_char c a = false → has_char c a' = false →
  a +:+ String c x = a' +:+ String c y → a = a'.
Proof.
  induction a as [|h a IH]; intros [|h' a'] x y Ha Ha' Heq;
    simpl in *; try done.
  - injection Heq as <- _. by rewrite Ascii.eqb_refl in Ha'.
  - injection Heq as -> _. by rewrite Ascii.eqb_refl in Ha.
  - injection Heq as <- Heq.
    apply orb_false_iff in Ha as [_ Ha], Ha' as [_ Ha'].
    f_equal. by eapply IH.
Qed.

(** Windows with different starts have different keys. *)
Lemma segment_key_start s s' t t' :
  segment_key s t = segment_key s' t' → s = s'.
Proof.
  unfold segment_key. intros H.
  apply (String.app_inj "segment_") in H.
  apply (inj pretty). revert H. apply first_occurrence;
    apply pretty_Z_no_underscore.
Qed.

Lemma range_NoDup a b step l : range a b step = Ok l → NoDup l.
Proof.
  unfold range. destruct (step =? 0) eqn:E; [done|].
  apply Z.eqb_neq in E. intros [= <-].
  apply NoDup_fmap_2; [|apply NoDup_seq].
  intros i j Hij. nia.
Qed.

Lemma range_step_nonzero a b step :
  step ≠ 0 → ∃ l, range a b step = Ok l.
Proof.
  intros H. unfold range. apply Z.eqb_neq in H. rewrite H. by eexists.
Qed.

End KeyFacts.

(** ** The segment loop and the final concatenation *)

Module DubFacts.
Import Py VideoDubber KeyFacts LedgerFacts.

Section Loop.
Variable e : env.
Variable reference : string.
Variable W : Z.
Variable self1 : dubber.

Local Abbreviation key_of s :=
  (segment_key s (window_end (duration e) W s)).
Local Abbreviation window_of :=
  (λ s : Z, (s, window_end (duration e) W s)).

Lemma process_segment_same s a b :
  TEMP_DIR s = TEMP_DIR self1 →
  voice_cloner s = voice_cloner self1 →
  process_segment e s reference a b = process_segment e self1 reference a b.
Proof. intros Ht Hc. unfold process_segment. by rewrite Ht, Hc. Qed.

(** The loop appends, window after window, the output each window
    resolves to against the ledger the loop started from, and adds to the
    ledger nothing but keys of its windows. *)
Lemma segment_loop_outputs starts : NoDup starts → ∀ dubbed s,
  TEMP_DIR s = TEMP_DIR self1 →
  voice_cloner s = voice_cloner self1 →
  (∀ k d, progress s !! k = Some d → is_Some (output d)) →
  (∀ a, a ∈ starts → progress s !! key_of a = progress self1 !! key_of a) →
  ∃ s',
    segment_loop e reference W starts (dubbed, s)
    = Ok (dubbed ++ omap (window_output e self1 reference)
                         (map window_of starts), s')
    ∧ (∀ k, is_Some (progress s' !! k) →
            is_Some (progress s !! k) ∨ ∃ a, a ∈ starts ∧ k = key_of a).
Proof.
  induction 1 as [|a starts Ha Hnd IH]; intros dubbed s Ht Hc Hout Hsame.
  { exists s. simpl. rewrite app_nil_r. split; [done|]. by left. }
  cbn [segment_loop segment_step map]. unfold mbind, result_bind.
  assert (∀ s2 : dubber,
    TEMP_DIR s2 = TEMP_DIR self1 →
    voice_cloner s2 = voice_cloner self1 →
    (∀ k d, progress s2 !! k = Some d → is_Some (output d)) →
    (∀ k, is_Some (progress s2 !! k) →
          is_Some (progress s !! k) ∨ k = key_of a) →
    (∀ b, b ∈ starts → progress s2 !! key_of b = progress s !! key_of b) →
    ∀ dubbed2,
    ∃ s', segment_loop e reference W starts (dubbed2, s2)
          = Ok (dubbed2 ++ omap (window_output e self1 reference)
                                (map window_of starts), s')
          ∧ (∀ k, is_Some (progress s' !! k) →
                  is_Some (progress s !! k)
                  ∨ ∃ b, b ∈ a :: starts ∧ k = key_of b)) as Hrest.
  { intros s2 Ht2 Hc2 Hout2 Hdom2 Hsame2 dubbed2.
    destruct (IH dubbed2 s2 Ht2 Hc2 Hout2) as (s' & Hloop & Hdom).
    { intros b Hb. rewrite Hsame2 by done. apply Hsame. by right. }
    exists s'. split; [done|]. intros k Hk.
    destruct (Hdom k Hk) as [Hk2|(b & Hb & ->)].
    - destruct (Hdom2 k Hk2) as [?| ->]; [by left|].
      right. exists a. split; [by left | done].
    - right. exists b. split; [by right | done]. }
  cbn [omap list_omap]. unfold window_output at 1. cbn [fst snd].
  rewrite <-(Hsame a) by by left.
  destruct (progress s !! key_of a) as [data|] eqn:Elook.
  - destruct (Hout _ _ Elook) as [out Eout]. rewrite Eout.
    destruct (Hrest s Ht Hc Hout) with (dubbed2 := dubbed ++ [out])
      as (s' & Hloop & Hdom); [by left | done |].
    exists s'. rewrite Hloop. by rewrite <-app_assoc.
  - rewrite (process_segment_same s) by done.
    destruct (process_segment e self1 reference a _) as [[|c out]|] eqn:Eps;
      cbn [truthy default].
    + destruct (Hrest s Ht Hc Hout) with (dubbed2 := dubbed)
        as (s' & Hloop & Hdom); [by left | done |].
      exists s'. by rewrite Hloop.
    + set (s2 := save_progress e (with_progress s _)).
      assert (progress s2 = <[key_of a := {| output := Some (String c out);
                                               completed := true |}]>
                              (progress s)) as Hp2.
      { unfold s2, save_progress. done. }
      destruct (Hrest s2) with (dubbed2 := dubbed ++ [String c out])
        as (s' & Hloop & Hdom).
      * unfold s2, save_progress. done.
      * unfold s2, save_progress. done.
      * intros k d. rewrite Hp2. intros Hkd.
        apply lookup_insert_Some in Hkd as [[_ <-]|[_ Hkd]]; [by eexists|].
        by eapply Hout.
      * intros k. rewrite Hp2. intros Hk.
        destruct (decide (key_of a = k)) as [<-|Hne]; [by right|].
        left. by rewrite lookup_insert_ne in Hk.
      * intros b Hb. rewrite Hp2. apply lookup_insert_ne.
        intros Heq. apply segment_key_start in Heq. by subst.
      * exists s'. unfold id. rewrite Hloop. by rewrite <-app_assoc.
    + destruct (Hrest s Ht Hc Hout) with (dubbed2 := dubbed)
        as (s' & Hloop & Hdom); [by left | done |].
      exists s'. by rewrite Hloop.
Qed.

End Loop.

(** After a validation that returned, every entry has an output. *)
Lemma validated_outputs e self self1 ret :
  validate_progress e self = Ok (self1, ret) →
  ∀ k d, progress self1 !! k = Some d → is_Some (output d).
Proof.
  intros Hv k d Hkd.
  apply validate_progress_Ok in Hv as (_ & _ & _ & Hp).
  rewrite Hp in Hkd. apply valid_progress_lookup in Hkd as [_ Hk].
  apply check_entry_Keep in Hk as (out & _ & _ & _ & _ & _ & Ho & _).
  by exists out.
Qed.

Lemma ceil_div_nonzero a b : b ≠ 0 → ∃ z, ceil_div a b = Ok z.
Proof.
  intros H. unfold ceil_div. apply Z.eqb_neq in H. rewrite H. by eexists.
Qed.

(** A run that gets to the loop, up to the test on [dubbed_segments]. *)
Lemma dub_video_loop e self W self1 ret reference :
  validate_progress e self = Ok (self1, ret) →
  reference_audio e = Some reference →
  W ≠ 0 →
  ∃ starts s',
    window_starts (duration e) W = Ok starts
    ∧ segment_loop e reference W starts ([], self1)
      = Ok (omap (window_output e self1 reference)
                 (map (λ s, (s, window_end (duration e) W s)) starts), s')
    ∧ (∀ k, is_Some (progress s' !! k) →
            is_Some (progress self1 !! k)
            ∨ ∃ a, a ∈ starts
                   ∧ k = segment_key a (window_end (duration e) W a))
    ∧ dub_video e self W
      = match omap (window_output e self1 reference)
                (map (λ s, (s, window_end (duration e) W s)) starts) with
        | [] =>
            {| status := Failed (RuntimeError
                 "No segments were successfully processed");
               concatenated := None;
               ledger := Some (progress s') |}
        | dubbed_segments =>
            {| status :=
                 if ffmpeg_succeeds e (map (abspath e) dubbed_segments)
                 then Done
                 else Failed (RuntimeError "FFmpeg concatenation failed");
               concatenated := Some (map (abspath e) dubbed_segments);
               ledger := Some (progress s') |}
        end.
Proof.
  intros Hv Href HW.
  destruct (range_step_nonzero 0 (int_of_float (duration e)) W HW)
    as [starts Hstarts].
  destruct (segment_loop_outputs e reference W self1 starts
              (range_NoDup _ _ _ _ Hstarts) [] self1 eq_refl eq_refl
              (validated_outputs e self self1 ret Hv) (λ _ _, eq_refl))
    as (s' & Hloop & Hdom).
  exists starts, s'. simpl in Hloop.
  repeat split; [done..|].
  unfold dub_video. rewrite Hv, Href.
  destruct (ceil_div_nonzero (duration e) W HW) as [n Hn].
  unfold total_segments. rewrite Hn.
  unfold window_starts in *. rewrite Hstarts, Hloop.
  by destruct (omap _ _).
Qed.

(** C2.  In a run that gets to the loop, the concatenation is invoked as
    soon as one window of the partition has an output, on the outputs
    that exist, in window order; the run fails before the concatenation
    only when no window has an output. *)
Theorem concatenation_needs_one_output e self W self1 ret reference :
  validate_progress e self = Ok (self1, ret) →
  reference_audio e = Some reference →
  W ≠ 0 →
  ∃ ws,
    windows (duration e) W = Ok ws
    ∧ let outs := omap (window_output e self1 reference) ws in
      let r := dub_video e self W in
      (outs = [] →
       status r
       = Failed (RuntimeError "No segments were successfully processed")
       ∧ concatenated r = None)
      ∧ (outs ≠ [] → concatenated r = Some (map (abspath e) outs)).
Proof.
  intros Hv Href HW.
  destruct (dub_video_loop e self W self1 ret reference Hv Href HW)
    as (starts & s' & Hstarts & _ & _ & Hrun).
  exists (map (λ s, (s, window_end (duration e) W s)) starts).
  split.
  { unfold windows. by rewrite Hstarts. }
  intros outs r. subst outs r. rewrite Hrun.
  destruct (omap _ _) as [|o outs]; by split.
Qed.

Lemma concatenation_needs_one_output_witness :
  concatenated
    (dub_video (Scenario.studio ["ref.wav"] (1401 # 2))
       (Scenario.dubber_with ∅) 300)
  = Some ["/home/work/video/temp_output_0.mp4";
          "/home/work/video/temp_output_600.mp4"].
Proof.
  destruct (concatenation_needs_one_output
              (Scenario.studio ["ref.wav"] (1401 # 2))
              (Scenario.dubber_with ∅) 300
              (Scenario.dubber_with ∅) true "ref.wav")
    as (ws & Hws & _ & Hsome);
    [reflexivity | reflexivity | lia |].
  vm_compute in Hws. injection Hws as <-.
  apply Hsome. vm_compute. discriminate.
Defined.

(** C2, as first stated, fails on a video of 700.5 seconds with nothing
    said between seconds 300 and 600: the second of the three windows has
    no output, from the ledger or fresh, and the run still concatenates
    the other two and ends normally. *)
Lemma partial_video_is_concatenated :
  windows (1401 # 2) 300
  = Ok [(0, Int 300); (300, Int 600); (600, Float (1401 # 2))]
  ∧ window_output (Scenario.studio ["ref.wav"] (1401 # 2))
      (Scenario.dubber_with ∅) "ref.wav" (300, Int 600) = None
  ∧ concatenated
      (dub_video (Scenario.studio ["ref.wav"] (1401 # 2))
         (Scenario.dubber_with ∅) 300)
    = Some ["/home/work/video/temp_output_0.mp4";
            "/home/work/video/temp_output_600.mp4"]
  ∧ status
      (dub_video (Scenario.studio ["ref.wav"] (1401 # 2))
         (Scenario.dubber_with ∅) 300)
    = Done.
Proof. repeat split; vm_compute; reflexivity. Qed.

Lemma int_of_float_floor D : (0 <= D)%Q → int_of_float D = Qfloor D.
Proof.
  destruct D as [n d]. unfold int_of_float, Qfloor, Qle. simpl. intros H.
  apply Z.quot_div_nonneg; lia.
Qed.

(** Where the partition is right: for a positive duration whose whole
    part is not a multiple of the window size, or that is a whole number
    of seconds, the windows are [k] full windows
    [i * W, (i + 1) * W) followed by a last window from [k * W] to the
    duration, which is not empty and not longer than [W]. *)
Lemma windows_cover D W :
  (0 < D)%Q → 0 < W →
  ¬ (int_of_float D mod W = 0 ∧ (inject_Z (int_of_float D) < D)%Q) →
  ∃ (k : nat) (last_end : num),
    windows D W
    = Ok (map (λ i : nat, (Z.of_nat i * W, Int ((Z.of_nat i + 1) * W)))
              (seq 0 k)
          ++ [(Z.of_nat k * W, last_end)])
    ∧ (value last_end == D)%Q
    ∧ (inject_Z (Z.of_nat k * W) < D)%Q
    ∧ (D <= inject_Z ((Z.of_nat k + 1) * W))%Q.
Proof.
  intros HD HW Htail.
  assert (0 <= D)%Q as HD0 by by apply Qlt_le_weak.
  rewrite int_of_float_floor in Htail by done.
  pose proof (Qfloor_le D) as Hlo. pose proof (Qlt_floor D) as Hhi.
  set (n := Qfloor D) in *.
  assert (0 <= n) as Hn0.
  { replace 0 with (Qfloor 0) by done. by apply Qfloor_resp_le. }
  assert (1 <= n) as Hn1.
  { destruct (decide (n = 0)) as [Hz|]; [|lia].
    exfalso. apply Htail. rewrite Hz. by split. }
  set (m := (n + W - 1) / W).
  assert (W * m <= n + W - 1) as Hm1 by (apply Z.mul_div_le; lia).
  assert (n <= W * m) as Hm2.
  { pose proof (Z.mod_pos_bound (n + W - 1) W HW).
    pose proof (Z.div_mod (n + W - 1) W ltac:(lia)). unfold m. lia. }
  assert (1 <= m) as Hm3 by nia.
  set (k := Z.to_nat (m - 1)).
  assert (Z.of_nat k = m - 1) as Hk by (unfold k; lia).
  assert (W * m = n → (D <= inject_Z n)%Q) as Hexact.
  { intros Heq. apply Qnot_lt_le. intros Hlt. apply Htail. split; [|done].
    rewrite <-Heq, Z.mul_comm. apply Z.mod_mul. lia. }
  exists k, (window_end D W (Z.of_nat k * W)).
  split; [|split; [|split]].
  - unfold windows, window_starts, range.
    rewrite int_of_float_floor by done. fold n.
    replace (W =? 0) with false by (symmetry; apply Z.eqb_neq; lia).
    replace (0 <? W) with true by (symmetry; by apply Z.ltb_lt).
    replace (n - 0 + W - 1) with (n + W - 1) by lia. fold m.
    replace (Z.to_nat m) with (S k) by (unfold k; lia).
    cbn [mbind result_bind]. f_equal.
    rewrite seq_S, !map_app, map_map. cbn [map]. f_equal.
    apply map_ext_in. intros i Hi. apply in_seq in Hi.
    rewrite Z.add_0_l. f_equal.
    unfold window_end, min_num. cbn [value].
    replace (Qlt_bool D (inject_Z (Z.of_nat i * W + W))) with false.
    { f_equal. lia. }
    symmetry. apply PyFacts.Qlt_bool_false.
    eapply Qle_trans; [|exact Hlo]. rewrite <-Zle_Qle. nia.
  - unfold window_end, min_num. cbn [value].
    destruct (Qlt_bool D (inject_Z (Z.of_nat k * W + W))) eqn:E;
      cbn [value]; [reflexivity|].
    apply PyFacts.Qlt_bool_false in E.
    replace (Z.of_nat k * W + W) with (W * m) in * by nia.
    assert (W * m < n + 1) as Hlt.
    { rewrite Zlt_Qlt. by eapply Qle_lt_trans. }
    assert (W * m = n) as Heq by lia.
    apply Qle_antisym; [done|]. rewrite Heq. by apply Hexact.
  - eapply Qlt_le_trans; [|exact Hlo]. rewrite <-Zlt_Qlt. nia.
  - replace ((Z.of_nat k + 1) * W) with (W * m) by nia.
    destruct (decide (W * m = n)) as [Heq|Hne].
    + rewrite Heq. by apply Hexact.
    + apply Qlt_le_weak. eapply Qlt_le_trans; [exact Hhi|].
      rewrite <-Zle_Qle. lia.
Qed.

(** C4.  A video of 600.5 seconds cut in windows of 300 seconds: the loop
    goes through [0, 300) and [300, 600) and leaves the last half second
    out, while [total_segments] counts three windows. *)
Theorem last_fraction_is_left_out :
  windows (1201 # 2) 300 = Ok [(0, Int 300); (300, Int 600)]
  ∧ total_segments (1201 # 2) 300 = Ok 3.
Proof. split; vm_compute; reflexivity. Qed.

(** C6.  Every key that a run writes to the ledger, that is every key
    the ledger holds at the end of the run and did not hold after the
    validation that opens the run, is the key of a window of the
    partition: [segment_], the window's start as an integer, an
    underscore, and then either [start + segment_duration] as an integer,
    when that does not exceed the duration, or else the duration itself
    printed as a float.  A key that validation dropped and the run wrote
    again is one of them. *)
Theorem written_key_form e self W self1 ret final key :
  validate_progress e self = Ok (self1, ret) →
  ledger (dub_video e self W) = Some final →
  is_Some (final !! key) →
  progress self1 !! key = None →
  ∃ starts s,
    window_starts (duration e) W = Ok starts
    ∧ s ∈ starts
    ∧ (((inject_Z (s + W) <= duration e)%Q
        ∧ key = "segment_" +:+ pretty s +:+ "_" +:+ pretty (s + W))
       ∨ ((duration e < inject_Z (s + W))%Q
          ∧ key = "segment_" +:+ pretty s +:+ "_"
                    +:+ repr_float (duration e))).
Proof.
  intros Hv Hled Hkey Hnew1.
  destruct (reference_audio e) as [reference|] eqn:Href.
  2:{ unfold dub_video in Hled. rewrite Hv, Href in Hled.
      injection Hled as <-. rewrite Hnew1 in Hkey. by destruct Hkey. }
  destruct (decide (W = 0)) as [->|HW].
  { unfold dub_video in Hled. by rewrite Hv, Href in Hled. }
  destruct (dub_video_loop e self W self1 ret reference Hv Href HW)
    as (starts & s' & Hstarts & _ & Hdom & Hrun).
  assert (final = progress s') as ->.
  { rewrite Hrun in Hled. destruct (omap _ _); by injection Hled. }
  destruct (Hdom key Hkey) as [Hold|(s & Hs & ->)].
  { rewrite Hnew1 in Hold. by destruct Hold. }
  exists starts, s. split; [done|]. split; [done|].
  unfold segment_key, window_end, min_num. simpl value.
  destruct (Qlt_bool (duration e) (inject_Z (s + W))) eqn:E.
  - right. by apply PyFacts.Qlt_bool_true in E.
  - left. by apply PyFacts.Qlt_bool_false in E.
Qed.

(** A second run over a video of 700.5 seconds: the ledger holds the key
    of the last window, validation drops it (it looks for
    [ru_600_700.srt]), and the run writes it again. *)
Lemma written_key_form_witness :
  Scenario.last_window_ledger !! "segment_600_700.5"
  = Some (Scenario.clip "work/video/temp_output_600.mp4")
  ∧ ∃ starts s,
      window_starts (1401 # 2) 300 = Ok starts
      ∧ s ∈ starts
      ∧ ((((inject_Z (s + 300) <= 1401 # 2)%Q
           ∧ "segment_600_700.5"
             = "segment_" +:+ pretty s +:+ "_" +:+ pretty (s + 300))
          ∨ ((1401 # 2 < inject_Z (s + 300))%Q
             ∧ "segment_600_700.5"
               = "segment_" +:+ pretty s +:+ "_"
                   +:+ repr_float (1401 # 2)))).
Proof.
  split; [reflexivity|].
  destruct (validate_progress
              (Scenario.studio Scenario.last_window_files (1401 # 2))
              (Scenario.dubber_with Scenario.last_window_ledger))
    as [[self1 ret]|ex] eqn:Hv; [|vm_compute in Hv; discriminate].
  destruct (ledger (dub_video
                      (Scenario.studio Scenario.last_window_files (1401 # 2))
                      (Scenario.dubber_with Scenario.last_window_ledger) 300))
    as [final|] eqn:E; [|vm_compute in E; discriminate].
  apply (written_key_form
           (Scenario.studio Scenario.last_window_files (1401 # 2))
           (Scenario.dubber_with Scenario.last_window_ledger) 300
           self1 ret final "segment_600_700.5" Hv E).
  - vm_compute in E. injection E as <-. vm_compute. by eexists.
  - vm_compute in Hv. injection Hv as <- _. vm_compute. reflexivity.
Defined.

(** C6, as first stated, fails on the last window of a video of 700.5
    seconds: its end truncates to 700, and the key written for it is
    [segment_600_700.5], which is not [segment_], an integer, an
    underscore and an integer; the ledger has no key [segment_600_700]. *)
Lemma last_window_key_keeps_fraction :
  windows (1401 # 2) 300
  = Ok [(0, Int 300); (300, Int 600); (600, Float (1401 # 2))]
  ∧ int_of_float (1401 # 2) = 700
  ∧ (∃ final,
       ledger (dub_video (Scenario.studio ["ref.wav"] (1401 # 2))
                 (Scenario.dubber_with ∅) 300) = Some final
       ∧ final !! "segment_600_700.5"
         = Some (Scenario.clip "work/video/temp_output_600.mp4")
       ∧ final !! "segment_600_700" = None)
  ∧ ¬ ∃ a b : Z,
        "segment_600_700.5" = "segment_" +:+ pretty a +:+ "_" +:+ pretty b.
Proof.
  split; [vm_compute; reflexivity|]. split; [reflexivity|]. split.
  { eexists. split; [vm_compute; reflexivity|].
    split; vm_compute; reflexivity. }
  intros (a & b & H).
  change ("segment_" +:+ ("600" +:+ String "_" "700.5")
          = "segment_" +:+ (pretty a +:+ String "_" (pretty b))) in H.
  apply (String.app_inj "segment_") in H.
  assert ("600" = pretty a) as Ha.
  { revert H. apply first_occurrence;
      [reflexivity | apply pretty_Z_no_underscore]. }
  rewrite <-Ha in H. apply (String.app_inj "600") in H.
  injection H as Hb.
  pose proof (pretty_Z_no_dot b) as Hdot. rewrite <-Hb in Hdot.
  discriminate Hdot.
Qed.

End DubFacts.

(** ** Facts about strings *)

Module StringFacts.
Import Py.

Lemma string_app_cons (x : ascii) (a b : string) :
  String x a +:+ b = String x (a +:+ b).
Proof. reflexivity. Qed.

Lemma string_app_assoc (a b c : string) :
  (a +:+ b) +:+ c = a +:+ (b +:+ c).
Proof.
  induction a as [|x a IH]; [done|].
  by rewrite !string_app_cons, IH.
Qed.

Lemma string_app_nil_r (a : string) : a +:+ "" = a.
Proof.
  induction a as [|x a IH]; [done|]. by rewrite string_app_cons, IH.
Qed.

Lemma rev_app_app (s a b : string) :
  String.rev_app s (a +:+ b) = String.rev_app s a +:+ b.
Proof.
  revert a. induction s as [|x s IH]; intros a; cbn [String.rev_app]; [done|].
  by rewrite <-IH.
Qed.

Lemma rev_cons (x : ascii) (s : string) :
  String.rev (String x s) = String.rev s +:+ String x "".
Proof.
  unfold String.rev. cbn [String.rev_app].
  change (String x "") with ("" +:+ String x ""). by rewrite rev_app_app.
Qed.

Lemma rev_append (a b : string) :
  String.rev (a +:+ b) = String.rev b +:+ String.rev a.
Proof.
  induction a as [|x a IH].
  - change ("" +:+ b) with b. by rewrite string_app_nil_r.
  - change (String x a +:+ b) with (String x (a +:+ b)).
    by rewrite !rev_cons, IH, string_app_assoc.
Qed.

Lemma rev_involutive (s : string) : String.rev (String.rev s) = s.
Proof.
  induction s as [|x s IH]; [done|].
  by rewrite rev_cons, rev_append, IH.
Qed.

Lemma lstrip_clean (s : string) : starts_clean (lstrip s).
Proof.
  induction s as [|c s IH]; [done|]. cbn [lstrip].
  by destruct (is_space c) eqn:E.
Qed.

Lemma lstrip_id (s : string) : starts_clean s → lstrip s = s.
Proof. destruct s as [|c s]; [done|]. simpl. by intros ->. Qed.

(** What [lstrip] removes is a prefix. *)
Lemma lstrip_suffix (s : string) : ∃ w, s = w +:+ lstrip s.
Proof.
  induction s as [|c s [w IH]]; [by exists ""|]. cbn [lstrip].
  destruct (is_space c).
  - exists (String c w). by rewrite string_app_cons, <-IH.
  - by exists "".
Qed.

Lemma starts_clean_prefix (a b : string) :
  a ≠ "" → starts_clean (a +:+ b) → starts_clean a.
Proof. by destruct a. Qed.

(** [strip] leaves a stripped string as it is. *)
Lemma strip_idempotent (s : string) : strip (strip s) = strip s.
Proof.
  unfold strip.
  set (t := lstrip s). set (u := lstrip (String.rev t)).
  assert (starts_clean (String.rev u)) as Hclean.
  { destruct (lstrip_suffix (String.rev t)) as [w Hw]. fold u in Hw.
    destruct (decide (String.rev u = "")) as [->|Hne]; [done|].
    apply (starts_clean_prefix _ (String.rev w)); [done|].
    rewrite <-rev_append, <-Hw, rev_involutive. apply lstrip_clean. }
  rewrite (lstrip_id _ Hclean), rev_involutive.
  by rewrite (lstrip_id u (lstrip_clean _)).
Qed.

End StringFacts.

(** ** What the segment loop writes, and resuming *)

Module ResumeFacts.
Import Py VideoDubber KeyFacts LedgerFacts DubFacts.

Section Loop.
Variable e : env.
Variable reference : string.
Variable W : Z.

Local Abbreviation key_of s :=
  (segment_key s (window_end (duration e) W s)).
Local Abbreviation window_of :=
  (λ s : Z, (s, window_end (duration e) W s)).

Lemma save_progress_fields s :
  TEMP_DIR (save_progress e s) = TEMP_DIR s
  ∧ voice_cloner (save_progress e s) = voice_cloner s
  ∧ progress (save_progress e s) = progress s.
Proof. unfold save_progress. done. Qed.

(** One iteration either leaves the dubber alone or adds the record of
    the window it processed. *)
Lemma segment_step_cases dubbed s a :
  (∀ k d, progress s !! k = Some d → is_Some (output d)) →
  ∃ dubbed' s',
    segment_step e reference W (dubbed, s) a = Ok (dubbed', s')
    ∧ TEMP_DIR s' = TEMP_DIR s
    ∧ voice_cloner s' = voice_cloner s
    ∧ ((s' = s
        ∧ (is_Some (progress s !! key_of a)
           ∨ truthy (output (fresh_record e s reference W a)) = false))
       ∨ (progress s !! key_of a = None
          ∧ truthy (output (fresh_record e s reference W a)) = true
          ∧ s' = save_progress e
                   (with_progress s
                      (<[key_of a := fresh_record e s reference W a]>
                         (progress s))))).
Proof.
  intros Hout. unfold segment_step, fresh_record. cbn [output].
  destruct (progress s !! key_of a) as [data|] eqn:Elook.
  - destruct (Hout _ _ Elook) as [out ->].
    eexists _, s. repeat split; try done. left. split; [done|]. by left.
  - destruct (truthy (process_segment e s reference a _)) eqn:Et.
    + eexists _, _. split; [done|].
      destruct (save_progress_fields
                  (with_progress s
                     (<[key_of a := fresh_record e s reference W a]>
                        (progress s)))) as (Ht & Hc & _).
      unfold fresh_record in *. rewrite Ht, Hc.
      repeat split; try done. by right.
    + eexists _, s. repeat split; try done. left. split; [done|]. by right.
Qed.

Lemma fresh_record_same s s' a :
  TEMP_DIR s' = TEMP_DIR s → voice_cloner s' = voice_cloner s →
  fresh_record e s' reference W a = fresh_record e s reference W a.
Proof.
  intros Ht Hc. unfold fresh_record, process_segment. by rewrite Ht, Hc.
Qed.

(** What the loop does to the ledger. *)
Lemma segment_loop_ledger_spec starts : NoDup starts → ∀ dubbed s,
  (∀ k d, progress s !! k = Some d → is_Some (output d)) →
  ∃ dubbed' s',
    segment_loop e reference W starts (dubbed, s) = Ok (dubbed', s')
    ∧ TEMP_DIR s' = TEMP_DIR s
    ∧ voice_cloner s' = voice_cloner s
    ∧ (∀ k d, progress s !! k = Some d → progress s' !! k = Some d)
    ∧ (∀ k d, progress s !! k = None →
         (progress s' !! k = Some d
          ↔ ∃ a, a ∈ starts ∧ k = key_of a
                 ∧ truthy (output (fresh_record e s reference W a)) = true
                 ∧ d = fresh_record e s reference W a)).
Proof.
  induction 1 as [|a starts Ha Hnd IH]; intros dubbed s Hout.
  { exists dubbed, s. repeat split; try done.
    - intros Hk. congruence.
    - intros (a & Ha & _). by apply elem_of_nil in Ha. }
  destruct (segment_step_cases dubbed s a Hout)
    as (dubbed1 & s1 & Hstep & Ht1 & Hc1 & Hcases).
  assert (∀ k d, progress s1 !! k = Some d → is_Some (output d)) as Hout1.
  { destruct Hcases as [[-> _]|(_ & Htr & ->)]; [done|].
    intros k d. destruct (save_progress_fields
      (with_progress s (<[key_of a := fresh_record e s reference W a]>
                          (progress s)))) as (_ & _ & ->).
    cbn [progress with_progress]. intros Hkd.
    apply lookup_insert_Some in Hkd as [[_ <-]|[_ Hkd]]; [|by eapply Hout].
    destruct (output (fresh_record e s reference W a)); [by eexists|done]. }
  destruct (IH dubbed1 s1 Hout1)
    as (dubbed' & s' & Hloop & Ht & Hc & Hold & Hnew).
  exists dubbed', s'. cbn [segment_loop]. rewrite Hstep.
  cbn [mbind result_bind]. split; [done|].
  split; [congruence|]. split; [congruence|].
  destruct Hcases as [[-> Hskip]|(Hfree & Htr & Hs1)].
  - split; [done|]. intros k d Hk. rewrite (Hnew k d Hk). split.
    + intros (b & Hb & ?). exists b. split; [by right | done].
    + intros (b & Hb & -> & Htr & ->).
      apply elem_of_cons in Hb as [->|Hb]; [|by exists b].
      destruct Hskip as [[? Hin]|Hfalse]; congruence.
  - assert (progress s1
            = <[key_of a := fresh_record e s reference W a]> (progress s))
      as Hp1.
    { rewrite Hs1. by destruct (save_progress_fields
        (with_progress s (<[key_of a := fresh_record e s reference W a]>
                            (progress s)))) as (_ & _ & ->). }
    split.
    + intros k d Hkd. apply Hold. rewrite Hp1.
      rewrite lookup_insert_ne; [done|]. congruence.
    + intros k d Hk. destruct (decide (k = key_of a)) as [->|Hne].
      * assert (progress s' !! key_of a
                = Some (fresh_record e s reference W a)) as Hrec.
        { apply Hold. rewrite Hp1. apply lookup_insert_eq. }
        rewrite Hrec. split.
        -- intros [= <-]. exists a. split; [by left | done].
        -- intros (b & _ & Hkey & _ & ->).
           apply segment_key_start in Hkey as <-. done.
      * assert (progress s1 !! k = None) as Hk1.
        { rewrite Hp1. by rewrite lookup_insert_ne. }
        rewrite (Hnew k d Hk1).
        setoid_rewrite (fresh_record_same s s1 _ Ht1 Hc1). split.
        -- intros (b & Hb & ?). exists b. split; [by right | done].
        -- intros (b & Hb & -> & ?).
           apply elem_of_cons in Hb as [->|Hb]; [done | by exists b].
Qed.

(** X1.  The loop never touches an entry that is already in the ledger,
    and it adds an entry for a key exactly when that key is the key of a
    window it processed with success; the entry then holds the clip that
    [process_segment] returned and [completed = True]. *)
Theorem segment_loop_ledger starts : NoDup starts → ∀ dubbed s,
  (∀ k d, progress s !! k = Some d → is_Some (output d)) →
  ∃ dubbed' s',
    segment_loop e reference W starts (dubbed, s) = Ok (dubbed', s')
    ∧ TEMP_DIR s' = TEMP_DIR s
    ∧ voice_cloner s' = voice_cloner s
    ∧ (∀ k d, progress s !! k = Some d → progress s' !! k = Some d)
    ∧ (∀ k d, progress s !! k = None →
         (progress s' !! k = Some d
          ↔ ∃ a, a ∈ starts ∧ k = key_of a
                 ∧ truthy (output (fresh_record e s reference W a)) = true
                 ∧ d = fresh_record e s reference W a)).
Proof. apply segment_loop_ledger_spec. Qed.

(** The loop over windows that are all settled. *)
Lemma segment_loop_settled_spec starts : ∀ dubbed s,
  (∀ k d, progress s !! k = Some d → is_Some (output d)) →
  (∀ a, a ∈ starts →
        is_Some (progress s !! key_of a)
        ∨ truthy (output (fresh_record e s reference W a)) = false) →
  segment_loop e reference W starts (dubbed, s)
  = Ok (dubbed ++ omap (λ a, progress s !! key_of a ≫= output) starts, s).
Proof.
  induction starts as [|a starts IH]; intros dubbed s Hout Hsettled.
  { simpl. by rewrite app_nil_r. }
  cbn [segment_loop segment_step]. unfold mbind at 1, result_bind.
  cbn [omap list_omap].
  destruct (progress s !! key_of a) as [data|] eqn:Elook.
  - destruct (Hout _ _ Elook) as [out Eout]. rewrite Eout.
    cbn [mbind option_bind]. rewrite Eout.
    rewrite IH; [by rewrite <-app_assoc | done |].
    intros b Hb. apply Hsettled. by right.
  - destruct (Hsettled a) as [[? Hin]|Hfalse]; [by left | congruence |].
    unfold fresh_record in Hfalse. cbn [output] in Hfalse.
    rewrite Hfalse. cbn [mbind option_bind].
    apply IH; [done|]. intros b Hb. apply Hsettled. by right.
Qed.

(** X2.  Resuming: when every window either is in the ledger already or
    cannot be processed, the loop changes nothing (the ledger, and the
    file behind it, stay as they are) and hands on, window after window,
    the clip recorded for each window that has one. *)
Theorem segment_loop_settled starts : ∀ dubbed s,
  (∀ k d, progress s !! k = Some d → is_Some (output d)) →
  (∀ a, a ∈ starts →
        is_Some (progress s !! key_of a)
        ∨ truthy (output (fresh_record e s reference W a)) = false) →
  segment_loop e reference W starts (dubbed, s)
  = Ok (dubbed ++ omap (λ a, progress s !! key_of a ≫= output) starts, s).
Proof. apply segment_loop_settled_spec. Qed.

End Loop.

Lemma segment_loop_settled_witness :
  segment_loop (Scenario.studio ["ref.wav"] 700) "ref.wav" 300 [0; 300]
    ([], Scenario.dubber_with Scenario.stale_ledger)
  = Ok (["work/video/temp_output_0.mp4"; "work/video/temp_output_300.mp4"],
        Scenario.dubber_with Scenario.stale_ledger).
Proof.
  rewrite segment_loop_settled.
  - vm_compute. reflexivity.
  - unfold Scenario.dubber_with, Scenario.stale_ledger. cbn [progress].
    intros k d H.
    repeat (apply lookup_insert_Some in H as [[_ <-]|[_ H]];
            [by eexists|]).
    by rewrite lookup_empty in H.
  - intros a Ha. left.
    apply elem_of_cons in Ha as [->|Ha]; [vm_compute; by eexists|].
    apply list_elem_of_singleton in Ha as ->. vm_compute. by eexists.
Defined.

Lemma segment_loop_ledger_witness :
  ∃ dubbed' s',
    segment_loop (Scenario.studio ["ref.wav"] (1401 # 2)) "ref.wav" 300
      [0; 300; 600] ([], Scenario.dubber_with ∅) = Ok (dubbed', s')
    ∧ progress s' !! "segment_0_300"
      = Some (Scenario.clip "work/video/temp_output_0.mp4")
    ∧ progress s' !! "segment_300_600" = None.
Proof.
  destruct (segment_loop_ledger (Scenario.studio ["ref.wav"] (1401 # 2))
              "ref.wav" 300 [0; 300; 600]) with
    (dubbed := @nil string) (s := Scenario.dubber_with ∅)
    as (dubbed' & s' & Hloop & _ & _ & _ & Hnew).
  - apply (bool_decide_eq_true_1 (NoDup [0; 300; 600])).
    vm_compute. reflexivity.
  - intros k d H. unfold Scenario.dubber_with in H. cbn [progress] in H.
    by rewrite lookup_empty in H.
  - exists dubbed', s'. split; [exact Hloop|]. split.
    + apply Hnew; [reflexivity|]. exists 0.
      split; [by left|]. repeat split; vm_compute; reflexivity.
    + vm_compute in Hloop. injection Hloop as _ <-. vm_compute. reflexivity.
Defined.

Lemma omap_map_ext {A B C} (f : B → option C) (g : A → B)
    (h : A → option C) (l : list A) :
  (∀ a, a ∈ l → f (g a) = h a) → omap f (map g l) = omap h l.
Proof.
  induction l as [|a l IH]; intros H; [done|].
  cbn [map omap list_omap]. rewrite (H a) by by left.
  rewrite IH; [done|]. intros b Hb. apply H. by right.
Qed.

(** X3.  Running the loop again on the dubber it produced gives the same
    clips in the same order and changes nothing: recorded windows are
    reused and the windows that failed fail again. *)
Theorem segment_loop_rerun e reference W starts s dubbed s1 :
  NoDup starts →
  (∀ k d, progress s !! k = Some d → is_Some (output d)) →
  segment_loop e reference W starts ([], s) = Ok (dubbed, s1) →
  segment_loop e reference W starts ([], s1) = Ok (dubbed, s1).
Proof.
  intros Hnd Hout Hloop.
  destruct (segment_loop_ledger_spec e reference W starts Hnd [] s Hout)
    as (dubbed' & s' & Hloop' & Ht & Hc & Hold & Hnew).
  rewrite Hloop in Hloop'. injection Hloop' as <- <-.
  destruct (segment_loop_outputs e reference W s starts Hnd [] s
              eq_refl eq_refl Hout (λ _ _, eq_refl))
    as (s' & Hloop' & _).
  rewrite Hloop in Hloop'. injection Hloop' as Hdubbed _.
  rewrite segment_loop_settled_spec.
  - rewrite Hdubbed. cbn [app]. do 2 f_equal. symmetry.
    apply omap_map_ext. intros a Ha. unfold window_output. cbn [fst snd].
    destruct (progress s !! _) as [d|] eqn:Elook.
    + by rewrite (Hold _ _ Elook).
    + destruct (truthy (output (fresh_record e s reference W a))) eqn:Etr.
      * assert (progress s1 !! segment_key a
                  (window_end (duration e) W a)
                = Some (fresh_record e s reference W a)) as ->.
        { apply Hnew; [done|]. by exists a. }
        unfold fresh_record in Etr. cbn [output] in Etr. by rewrite Etr.
      * destruct (progress s1 !! _) as [d|] eqn:E1.
        { apply Hnew in E1 as (b & _ & Hkey & Htrb & _); [|done].
          apply segment_key_start in Hkey as <-. congruence. }
        unfold fresh_record in Etr. cbn [output] in Etr. by rewrite Etr.
  - intros k d Hkd. destruct (progress s !! k) as [d0|] eqn:Ek.
    + rewrite (Hold _ _ Ek) in Hkd. injection Hkd as <-. by eapply Hout.
    + apply Hnew in Hkd as (a & _ & _ & Htr & ->); [|done].
      destruct (output _); [by eexists | done].
  - intros a Ha.
    destruct (progress s !! segment_key a (window_end (duration e) W a))
      as [d|] eqn:Elook.
    { left. rewrite (Hold _ _ Elook). by eexists. }
    rewrite (fresh_record_same e reference W s s1 a Ht Hc).
    destruct (truthy (output (fresh_record e s reference W a))) eqn:Etr;
      [|by right].
    left. exists (fresh_record e s reference W a).
    apply Hnew; [done|]. by exists a.
Qed.

Lemma segment_loop_rerun_witness :
  ∃ dubbed s1,
    segment_loop (Scenario.studio ["ref.wav"] (1401 # 2)) "ref.wav" 300
      [0; 300; 600] ([], Scenario.dubber_with ∅) = Ok (dubbed, s1)
    ∧ segment_loop (Scenario.studio ["ref.wav"] (1401 # 2)) "ref.wav" 300
        [0; 300; 600] ([], s1) = Ok (dubbed, s1).
Proof.
  destruct (segment_loop (Scenario.studio ["ref.wav"] (1401 # 2)) "ref.wav"
              300 [0; 300; 600] ([], Scenario.dubber_with ∅))
    as [[dubbed s1]|ex] eqn:E; [|vm_compute in E; discriminate].
  exists dubbed, s1. split; [reflexivity|].
  apply (segment_loop_rerun _ _ _ _ (Scenario.dubber_with ∅)).
  - apply (bool_decide_eq_true_1 (NoDup [0; 300; 600])).
    vm_compute. reflexivity.
  - intros k d H. unfold Scenario.dubber_with in H. cbn [progress] in H.
    by rewrite lookup_empty in H.
  - exact E.
Defined.

(** *** The ledger file *)

(** What the writes of a run leave in [progress.json], from a dubber
    [s] to a later one [s']: with writes that complete, the file keeps
    pace with the ledger; with a file that cannot be opened, it is left
    alone; with writes that fail half-way, either nothing was written or
    the file is torn. *)
Local Abbreviation disk_follows e s s' :=
  ((progress_write e = Completes → in_sync s → in_sync s')
   ∧ (progress_write e = Refused →
      progress_on_disk s' = progress_on_disk s)
   ∧ (progress_write e = Tears →
      (progress s' = progress s ∧ progress_on_disk s' = progress_on_disk s)
      ∨ progress_on_disk s' = Unreadable JSONDecodeError)).

Lemma disk_follows_refl e s : disk_follows e s s.
Proof. split; [done|]. split; [done|]. intros _. by left. Qed.

Lemma disk_follows_trans e s1 s2 s3 :
  disk_follows e s1 s2 → disk_follows e s2 s3 → disk_follows e s1 s3.
Proof.
  intros (Hc1 & Hr1 & Ht1) (Hc2 & Hr2 & Ht2). split; [|split].
  - intros Hw Hs. by apply Hc2, Hc1.
  - intros Hw. by rewrite Hr2, Hr1.
  - intros Hw. destruct (Ht2 Hw) as [[Hp2 Hd2]|Htorn]; [|by right].
    destruct (Ht1 Hw) as [[Hp1 Hd1]|Htorn].
    + left. split; congruence.
    + right. congruence.
Qed.

Lemma disk_follows_save e s p :
  disk_follows e s (save_progress e (with_progress s p)).
Proof.
  unfold save_progress, in_sync. cbn [progress progress_on_disk with_progress].
  split; [|split]; intros ->; cbn [file_after]; [done | done | by right].
Qed.

Lemma segment_loop_disk e reference W starts : ∀ dubbed s dubbed' s',
  segment_loop e reference W starts (dubbed, s) = Ok (dubbed', s') →
  disk_follows e s s'.
Proof.
  induction starts as [|a starts IH]; intros dubbed s dubbed' s'.
  { intros [= _ <-]. apply disk_follows_refl. }
  cbn [segment_loop]. unfold mbind, result_bind.
  destruct (segment_step e reference W (dubbed, s) a)
    as [[dubbed1 s1]|] eqn:Hstep; [|done].
  intros Hloop. apply (disk_follows_trans e s s1 s'); [|by eapply IH].
  revert Hstep. unfold segment_step.
  destruct (progress s !! _) as [data|].
  - destruct (output data); [|done]. intros [= _ <-].
    apply disk_follows_refl.
  - destruct (truthy _); intros [= _ <-]; [|apply disk_follows_refl].
    apply disk_follows_save.
Qed.

Lemma validate_progress_disk e self self1 ret :
  validate_progress e self = Ok (self1, ret) →
  disk_follows e self self1.
Proof.
  unfold validate_progress.
  case_bool_decide; [intros [= <- <-]; apply disk_follows_refl|].
  destruct (escaping e self); [|done].
  destruct (0 <? invalid_segments e self)%nat; intros [= <- <-];
    [apply disk_follows_save | apply disk_follows_refl].
Qed.

Lemma in_sync_reopens work_dir s :
  in_sync s →
  ∃ opened,
    setup_work_directory work_dir (progress_on_disk s) = Ok opened
    ∧ progress opened = progress s.
Proof.
  unfold in_sync, setup_work_directory.
  destruct (progress_on_disk s) as [|ex|ledger]; [|done|].
  - intros ->. by eexists.
  - intros ->. by eexists.
Qed.



(** *** Runs without windows *)

(** X5.  In a run that gets past the voice phase: a segment duration of
    zero raises [ZeroDivisionError] before any window is processed; a
    negative one, or a video shorter than one second, gives no window at
    all, so the run fails with "No segments were successfully processed",
    ffmpeg is not invoked and the ledger is the validated one. *)
Theorem dub_video_without_windows e self W self1 ret reference :
  validate_progress e self = Ok (self1, ret) →
  reference_audio e = Some reference →
  (0 <= duration e)%Q →
  (W = 0 → dub_video e self W = failed ZeroDivisionError)
  ∧ (W < 0 ∨ (0 < W ∧ (duration e < 1)%Q) →
     dub_video e self W
     = {| status := Failed (RuntimeError
                      "No segments were successfully processed");
          concatenated := None;
          ledger := Some (progress self1) |}).
Proof.
  intros Hv Href HD. split.
  - intros ->. unfold dub_video. by rewrite Hv, Href.
  - intros HW.
    assert (0 <= int_of_float (duration e)) as Hn.
    { rewrite int_of_float_floor by done.
      replace 0 with (Qfloor 0) by done. by apply Qfloor_resp_le. }
    assert (W ≠ 0) as HW0 by lia.
    assert (window_starts (duration e) W = Ok []) as Hstarts.
    { unfold window_starts, range.
      replace (W =? 0) with false by (symmetry; by apply Z.eqb_neq).
      f_equal.
      destruct HW as [Hneg|[Hpos Hshort]].
      - replace (0 <? W) with false by (symmetry; apply Z.ltb_ge; lia).
        assert ((0 - int_of_float (duration e) - W - 1) / - W < 1)
          by (apply Z.div_lt_upper_bound; lia).
        by replace (Z.to_nat _) with 0%nat by lia.
      - replace (0 <? W) with true by (symmetry; by apply Z.ltb_lt).
        assert (int_of_float (duration e) < 1) as Hlt.
        { rewrite int_of_float_floor by done. rewrite Zlt_Qlt.
          eapply Qle_lt_trans; [apply Qfloor_le | done]. }
        replace (int_of_float (duration e)) with 0 by lia.
        replace (0 - 0 + W - 1) with (W - 1) by lia.
        rewrite Z.div_small by lia. done. }
    unfold dub_video. rewrite Hv, Href.
    destruct (ceil_div_nonzero (duration e) W HW0) as [n Hceil].
    unfold total_segments. by rewrite Hceil, Hstarts.
Qed.

Lemma dub_video_without_windows_witness :
  dub_video (Scenario.studio ["ref.wav"] (1 # 2)) (Scenario.dubber_with ∅)
    300
  = {| status := Failed (RuntimeError
                   "No segments were successfully processed");
       concatenated := None;
       ledger := Some ∅ |}
  ∧ dub_video (Scenario.studio ["ref.wav"] 700) (Scenario.dubber_with ∅) 0
    = failed ZeroDivisionError.
Proof.
  split.
  - apply (dub_video_without_windows
             (Scenario.studio ["ref.wav"] (1 # 2)) (Scenario.dubber_with ∅)
             300 (Scenario.dubber_with ∅) true "ref.wav");
      [reflexivity | reflexivity | vm_compute; discriminate |].
    right. split; [lia | reflexivity].
  - apply (dub_video_without_windows
             (Scenario.studio ["ref.wav"] 700) (Scenario.dubber_with ∅)
             0 (Scenario.dubber_with ∅) true "ref.wav");
      [reflexivity | reflexivity | vm_compute; discriminate | reflexivity].
Defined.

(** *** Clip files *)

(** X6.  Windows that start at different seconds get different clip
    files, so a freshly processed window never overwrites the clip of
    another one. *)
Theorem temp_output_path_inj temp_dir s s' :
  temp_output_path temp_dir s = temp_output_path temp_dir s' → s = s'.
Proof.
  unfold temp_output_path.
  set (video := path_join temp_dir "video").
  assert (∀ x, path_join video ("temp_output_" +:+ x)
               = (if ends_with_slash video then video
                  else match video with
                       | EmptyString => EmptyString
                       | _ => video +:+ "/"
                       end) +:+ ("temp_output_" +:+ x)) as Hjoin.
  { intros x. unfold path_join. cbn [String.app].
    destruct (ends_with_slash video); [done|].
    destruct video; [done|].
    by rewrite StringFacts.string_app_assoc. }
  rewrite !Hjoin. intros H.
  apply String.app_inj in H. apply (String.app_inj "temp_output_") in H.
  apply (inj pretty). revert H.
  change (pretty s +:+ ".mp4") with (pretty s +:+ String "." "mp4").
  change (pretty s' +:+ ".mp4") with (pretty s' +:+ String "." "mp4").
  apply first_occurrence; apply pretty_Z_no_dot.
Qed.

Lemma temp_output_path_inj_witness :
  temp_output_path "work" 0 ≠ temp_output_path "work" 300.
Proof.
  intros H. apply temp_output_path_inj in H. discriminate H.
Defined.

End ResumeFacts.

(** ** The assembled track *)

Module TrackFacts.
Import Py PyFacts VoiceCloner VoiceClonerFacts.

Lemma track_len_app (t1 t2 : track) :
  (track_len (t1 ++ t2) == track_len t1 + track_len t2)%Q.
Proof.
  induction t1 as [|p t1 IH].
  - unfold track_len. simpl. lra.
  - unfold track_len in *. simpl. rewrite IH. lra.
Qed.

Section Tracks.
Variable e : env.
Variable reference : string.
Variable max_gap : Q.

Local Abbreviation step := (process_subtitle e reference max_gap).
Local Abbreviation loop := (subtitle_loop e reference max_gap).

Lemma speech_of_silence gap :
  List.filter is_speech (leading_silence max_gap gap) = [].
Proof. unfold leading_silence. by destruct (Qlt_bool 0 gap). Qed.

Lemma speech_of_clip i sub :
  List.filter is_speech (clip_of e reference i sub)
  = clip_of e reference i sub.
Proof. unfold clip_of. by destruct (tts_to_file e _ _ _). Qed.

Lemma speech_of_clips subs : ∀ i,
  List.filter is_speech (synthesized_clips e reference i subs)
  = synthesized_clips e reference i subs.
Proof.
  induction subs as [|sub rest IH]; intros i; [done|].
  cbn [synthesized_clips]. by rewrite List.filter_app, speech_of_clip, IH.
Qed.

Lemma subtitle_loop_speech subs : ∀ i st,
  List.filter is_speech (loop i subs st).1
  = List.filter is_speech st.1 ++ synthesized_clips e reference i subs.
Proof.
  induction subs as [|sub rest IH]; intros i [fa last_end].
  { simpl. by rewrite app_nil_r. }
  cbn [subtitle_loop synthesized_clips]. rewrite IH.
  rewrite process_subtitle_track. cbn [fst].
  rewrite !List.filter_app, speech_of_silence, speech_of_clip.
  cbn [app]. by rewrite <-app_assoc.
Qed.

(** A silence the loop inserts is at most [max_gap] seconds long. *)
Lemma leading_silence_len gap :
  (0 <= max_gap)%Q →
  (0 <= track_len (leading_silence max_gap gap) <= max_gap * 1000)%Q.
Proof.
  intros Hmg. unfold leading_silence.
  destruct (Qlt_bool 0 gap); [|unfold track_len; simpl; lra].
  unfold track_len. cbn [foldr piece_len].
  set (ms := min_Q (gap * 1000) (max_gap * 1000)).
  assert (ms <= max_gap * 1000)%Q.
  { unfold ms, min_Q. destruct (Qlt_bool _ _) eqn:E; [lra|].
    by apply Qlt_bool_false in E. }
  destruct (Qlt_bool 0 ms) eqn:E; [|lra].
  apply Qlt_bool_true in E. lra.
Qed.

Lemma subtitle_loop_len subs : ∀ i st,
  (0 <= max_gap)%Q →
  (track_len (loop (S i) subs st).1
   <= track_len st.1 + track_len (synthesized_clips e reference (S i) subs)
      + inject_Z (Z.of_nat (length subs)) * (max_gap * 1000))%Q.
Proof.
  induction subs as [|sub rest IH]; intros i [fa last_end] Hmg.
  { cbn [subtitle_loop synthesized_clips length fst].
    change (track_len []) with 0%Q. change (inject_Z (Z.of_nat 0)) with 0%Q.
    lra. }
  cbn [subtitle_loop synthesized_clips length].
  specialize (IH (S i) (step (S i) sub (fa, last_end)) Hmg).
  rewrite process_subtitle_track in IH. cbn [fst] in *.
  pose proof (track_len_app fa
    (leading_silence max_gap (gap_before (S i) sub last_end)
       ++ clip_of e reference (S i) sub)) as H1.
  pose proof (track_len_app
    (leading_silence max_gap (gap_before (S i) sub last_end))
    (clip_of e reference (S i) sub)) as H2.
  pose proof (track_len_app (clip_of e reference (S i) sub)
    (synthesized_clips e reference (S (S i)) rest)) as H3.
  pose proof (leading_silence_len (gap_before (S i) sub last_end) Hmg) as H4.
  rewrite Nat2Z.inj_succ, <-Z.add_1_r, inject_Z_plus.
  change (inject_Z 1) with 1%Q.
  set (n := inject_Z (Z.of_nat (length rest))) in *.
  lra.
Qed.

End Tracks.

(** [sorted] keeps the number of subtitles. *)
Lemma sorted_by_start_length (l : list SubtitleSegment) :
  length (sorted_by_start l) = length l.
Proof.
  assert (∀ x l', length (insert_by_start x l') = S (length l')) as Hins.
  { intros x l'. induction l' as [|y l' IH]; [done|]. simpl.
    destruct (Qle_bool _ _); simpl; by rewrite ?IH. }
  induction l as [|x l IH]; [done|].
  unfold sorted_by_start in *. simpl. by rewrite Hins, IH.
Qed.

(** *** [sorted(subtitles, key=lambda x: x.start)] *)

Local Abbreviation starts_by_then a b := ((start a <= start b)%Q).
Local Abbreviation starts_at q := (λ s : SubtitleSegment, Qeq_bool (start s) q).

Lemma insert_by_start_perm x l : insert_by_start x l ≡ₚ x :: l.
Proof.
  induction l as [|y l IH]; [done|]. cbn [insert_by_start].
  destruct (Qle_bool (start x) (start y)); [done|].
  rewrite IH. apply Permutation_swap.
Qed.

Lemma sorted_by_start_perm l : sorted_by_start l ≡ₚ l.
Proof.
  induction l as [|x l IH]; [done|]. unfold sorted_by_start in *.
  cbn [foldr]. rewrite insert_by_start_perm. by rewrite IH.
Qed.

Lemma insert_by_start_sorted x l :
  StronglySorted (λ a b, starts_by_then a b) l →
  StronglySorted (λ a b, starts_by_then a b) (insert_by_start x l).
Proof.
  induction l as [|y l IH]; intros Hl; cbn [insert_by_start].
  { apply SSorted_cons; [apply SSorted_nil | apply Forall_nil_2]. }
  apply StronglySorted_inv in Hl as [Hl Hy].
  destruct (Qle_bool (start x) (start y)) eqn:E.
  - apply Qle_bool_iff in E. apply SSorted_cons.
    + by apply SSorted_cons.
    + apply Forall_cons. split; [done|].
      eapply Forall_impl; [exact Hy|]. intros z Hz. cbn in *.
      by eapply Qle_trans.
  - apply SSorted_cons; [by apply IH|].
    rewrite insert_by_start_perm. apply Forall_cons. split; [|done].
    apply Qlt_le_weak, Qlt_bool_true. unfold Qlt_bool. by rewrite E.
Qed.

Lemma sorted_by_start_sorted l :
  StronglySorted (λ a b, starts_by_then a b) (sorted_by_start l).
Proof.
  induction l as [|x l IH]; [apply SSorted_nil|].
  unfold sorted_by_start in *. cbn [foldr]. by apply insert_by_start_sorted.
Qed.

(** The sort is stable: subtitles that start together keep their
    order. *)
Lemma insert_by_start_stable q x l :
  List.filter (starts_at q) (insert_by_start x l)
  = List.filter (starts_at q) (x :: l).
Proof.
  induction l as [|y l IH]; [done|]. cbn [insert_by_start].
  destruct (Qle_bool (start x) (start y)) eqn:E; [done|].
  cbn [List.filter] in *. rewrite IH.
  destruct (Qeq_bool (start x) q) eqn:Ex; [|done].
  destruct (Qeq_bool (start y) q) eqn:Ey; [|done].
  apply Qeq_bool_iff in Ex, Ey.
  assert (Qle_bool (start x) (start y) = true); [|congruence].
  apply Qle_bool_iff. rewrite Ex, Ey. apply Qle_refl.
Qed.

Lemma sorted_by_start_stable q l :
  List.filter (starts_at q) (sorted_by_start l) = List.filter (starts_at q) l.
Proof.
  induction l as [|x l IH]; [done|]. unfold sorted_by_start in *.
  cbn [foldr]. rewrite insert_by_start_stable. cbn [List.filter].
  by rewrite IH.
Qed.

(** X7.  The clips in an exported track are exactly the clips of the
    subtitles whose synthesis wrote a wav, in the order in which the loop
    went through them; everything else in the track is inserted silence.
    That order is the given subtitles rearranged in ascending order of
    start time, subtitles that start together keeping their order (a
    stable sort). *)
Theorem exported_clips_in_order e self subtitles out reference_audio_path
    max_gap reference p t :
  resolve_reference e self reference_audio_path = Some reference →
  exported (generate_timed_audio e self subtitles out reference_audio_path
              max_gap) = Some (p, t) →
  List.filter is_speech t
  = synthesized_clips e reference 0 (sorted_by_start subtitles)
  ∧ sorted_by_start subtitles ≡ₚ subtitles
  ∧ StronglySorted (λ a b, (start a <= start b)%Q) (sorted_by_start subtitles)
  ∧ ∀ q, List.filter (λ s, Qeq_bool (start s) q) (sorted_by_start subtitles)
         = List.filter (λ s, Qeq_bool (start s) q) subtitles.
Proof.
  intros Href Hexp.
  split; [|split; [apply sorted_by_start_perm|split;
                   [apply sorted_by_start_sorted|]]].
  - rewrite (exported_is_built _ _ _ _ _ _ _ _ _ Href Hexp).
    by rewrite subtitle_loop_speech.
  - intros q. apply sorted_by_start_stable.
Qed.

Lemma exported_clips_in_order_witness :
  ∃ t, exported (generate_timed_audio Scenario.speaking_world new_cloner
                   Scenario.late_first "out.wav" "ref.wav" 1)
       = Some ("out.wav", t)
       ∧ List.filter is_speech t
         = [Speech "a" 1500; Speech "b" 1500; Speech "c" 1500].
Proof.
  destruct (exported (generate_timed_audio Scenario.speaking_world
                        new_cloner Scenario.late_first "out.wav" "ref.wav" 1))
    as [[p t]|] eqn:E; [|vm_compute in E; discriminate].
  destruct (exported_clips_in_order Scenario.speaking_world new_cloner
              Scenario.late_first "out.wav" "ref.wav" 1 "ref.wav" p t
              eq_refl E) as [H _].
  vm_compute in E. injection E as <- <-.
  eexists. split; [reflexivity|]. exact H.
Defined.

(** X8.  Dead air is capped: with [max_gap >= 0], an exported track is
    longer than its clips taken together by at most [max_gap] seconds for
    each subtitle after the first. *)
Theorem exported_silence_is_bounded e self subtitles out reference_audio_path
    max_gap p t :
  (0 <= max_gap)%Q →
  exported (generate_timed_audio e self subtitles out reference_audio_path
              max_gap) = Some (p, t) →
  (track_len t
   <= track_len (List.filter is_speech t)
      + inject_Z (Z.of_nat (length subtitles) - 1) * (max_gap * 1000))%Q.
Proof.
  intros Hmg. unfold generate_timed_audio.
  destruct (resolve_reference e self reference_audio_path) as [reference|];
    [|done].
  pose proof (subtitle_loop_speech e reference max_gap
                (sorted_by_start subtitles) 0 ([], 0%Q)) as Hsp.
  pose proof (sorted_by_start_length subtitles) as Hlen.
  destruct (sorted_by_start subtitles) as [|sub rest] eqn:Es.
  { by cbn. }
  revert Hsp. cbn [subtitle_loop synthesized_clips].
  pose proof (subtitle_loop_len e reference max_gap rest 0
                (process_subtitle e reference max_gap 0 sub ([], 0%Q)) Hmg)
    as Hloop.
  destruct (subtitle_loop _ _ _ _ _ _) as [fa last_end].
  intros Hsp. cbn [fst] in *.
  destruct (0 <? audio_len fa); [|done].
  simpl. intros [= _ <-]. rewrite Hsp. cbn [List.filter app].
  rewrite process_subtitle_track in Hloop. cbn [fst app] in Hloop.
  change (leading_silence max_gap (gap_before 0 sub 0)) with ([] : track)
    in Hloop.
  cbn [app] in Hloop.
  pose proof (track_len_app (clip_of e reference 0 sub)
                (synthesized_clips e reference 1 rest)) as H1.
  rewrite <-Hlen. cbn [length].
  replace (Z.of_nat (S (length rest)) - 1) with (Z.of_nat (length rest))
    by lia.
  lra.
Qed.

Lemma exported_silence_is_bounded_witness :
  ∃ t, exported (generate_timed_audio Scenario.speaking_world new_cloner
                   Scenario.two_lines "out.wav" "ref.wav" 1)
       = Some ("out.wav", t)
       ∧ (track_len t
          <= track_len (List.filter is_speech t) + inject_Z 1 * (1 * 1000))%Q.
Proof.
  destruct (exported (generate_timed_audio Scenario.speaking_world
                        new_cloner Scenario.two_lines "out.wav" "ref.wav" 1))
    as [[p t]|] eqn:E; [|vm_compute in E; discriminate].
  pose proof (exported_silence_is_bounded Scenario.speaking_world new_cloner
                Scenario.two_lines "out.wav" "ref.wav" 1 p t
                ltac:(vm_compute; discriminate) E) as H.
  vm_compute in E. injection E as <- <-.
  eexists. split; [reflexivity|]. exact H.
Defined.

(** X9.  [_segments_overlap] does not depend on the order of its
    arguments, and for ranges with [start <= end] it holds exactly when
    the two closed ranges share a point; ranges that only touch
    overlap. *)
Theorem segments_overlap_shared_point s1 e1 s2 e2 :
  segments_overlap (s1, e1) (s2, e2) = segments_overlap (s2, e2) (s1, e1)
  ∧ ((s1 <= e1)%Q → (s2 <= e2)%Q →
     (segments_overlap (s1, e1) (s2, e2) = true
      ↔ ∃ x, (s1 <= x <= e1)%Q ∧ (s2 <= x <= e2)%Q)).
Proof.
  unfold segments_overlap. split; [by rewrite orb_comm|].
  intros H1 H2. rewrite negb_true_iff, orb_false_iff, !Qlt_bool_false.
  split.
  - intros [Ha Hb]. destruct (Qlt_le_dec s1 s2).
    + exists s2. lra.
    + exists s1. lra.
  - intros (x & Hx1 & Hx2). lra.
Qed.

Lemma segments_overlap_shared_point_witness :
  segments_overlap (0%Q, 2%Q) (2%Q, 3%Q) = true.
Proof.
  destruct (segments_overlap_shared_point 0 2 2 3) as [_ H].
  apply H; [vm_compute; discriminate | vm_compute; discriminate |].
  exists 2%Q. split; split; vm_compute; discriminate.
Defined.

End TrackFacts.

(** ** Voice samples: extraction and approved profiles *)

Module SamplesFacts.
Import Py PyFacts VoiceCloner.

Lemma extract_loop_spec dir mn mx chunks : ∀ i acc,
  (length acc < 5)%nat →
  extract_loop dir mn mx i chunks acc
  = take 5 (acc ++ map (sample_path dir) (qualifying mn mx i chunks)).
Proof.
  induction chunks as [|chunk rest IH]; intros i acc Hacc.
  { cbn [extract_loop qualifying map]. rewrite app_nil_r.
    by rewrite take_ge by lia. }
  cbn [extract_loop qualifying].
  destruct (qualifies mn mx chunk); [|by apply IH].
  cbn [map].
  replace (acc ++ sample_path dir i
             :: map (sample_path dir) (qualifying mn mx (S i) rest))
    with ((acc ++ [sample_path dir i])
            ++ map (sample_path dir) (qualifying mn mx (S i) rest))
    by by rewrite <-app_assoc.
  destruct (5 <=? length (acc ++ [sample_path dir i]))%nat eqn:E.
  - apply Nat.leb_le in E. rewrite length_app in E. cbn [length] in E.
    rewrite take_app_le by (rewrite length_app; cbn [length]; lia).
    rewrite take_ge; [done|]. rewrite length_app. cbn [length]. lia.
  - apply Nat.leb_gt in E. by apply IH.
Qed.

(** What one analysis of the video returns. *)
Lemma extract_pass_first_five_spec nonsilent dir mn mx thresh chunks :
  nonsilent thresh = Some chunks →
  extract_pass nonsilent dir mn mx thresh
  = Some (map (sample_path dir) (take 5 (qualifying mn mx 0 chunks)))
  ∧ ∀ found, extract_pass nonsilent dir mn mx thresh = Some found →
             (length found ≤ 5)%nat.
Proof.
  intros Hchunks. unfold extract_pass. rewrite Hchunks.
  rewrite extract_loop_spec by (cbn [length]; lia). cbn [app].
  assert (take 5 (map (sample_path dir) (qualifying mn mx 0 chunks))
          = map (sample_path dir) (take 5 (qualifying mn mx 0 chunks)))
    as -> by apply firstn_map.
  split; [done|]. intros found [= <-].
  rewrite length_map, length_take. lia.
Qed.

(** X10.  One analysis of the video keeps the first five chunks whose
    duration lies within the bounds, in the order of the chunks, and
    names each sample after the position of its chunk among all chunks
    ([sample_<i+1>.wav]); it never returns more than five samples. *)
Theorem extract_pass_first_five nonsilent dir mn mx thresh chunks :
  nonsilent thresh = Some chunks →
  extract_pass nonsilent dir mn mx thresh
  = Some (map (sample_path dir) (take 5 (qualifying mn mx 0 chunks)))
  ∧ ∀ found, extract_pass nonsilent dir mn mx thresh = Some found →
             (length found ≤ 5)%nat.
Proof. apply extract_pass_first_five_spec. Qed.

Lemma extract_pass_first_five_witness :
  extract_pass
    (λ _, Some [(0, 1000); (0, 3000); (0, 5000); (0, 11000); (5, 4000);
                (0, 9000); (0, 10000); (0, 7000); (0, 8000)])
    "x" 3 10 (-40)
  = Some ["x/sample_2.wav"; "x/sample_3.wav"; "x/sample_5.wav";
          "x/sample_6.wav"; "x/sample_7.wav"].
Proof.
  destruct (extract_pass_first_five
              (λ _, Some [(0, 1000); (0, 3000); (0, 5000); (0, 11000);
                          (5, 4000); (0, 9000); (0, 10000); (0, 7000);
                          (0, 8000)])
              "x" 3 10 (-40) _ eq_refl) as [H _].
  exact H.
Defined.

Lemma extract_pass_length nonsilent dir mn mx thresh found :
  extract_pass nonsilent dir mn mx thresh = Some found →
  (length found ≤ 5)%nat.
Proof.
  destruct (nonsilent thresh) as [chunks|] eqn:E.
  - by apply (extract_pass_first_five_spec nonsilent dir mn mx thresh
                chunks E).
  - unfold extract_pass. by rewrite E.
Qed.

(** X11.  [extract_voice_references] returns at most five samples,
    whatever the bounds and the threshold.  Called with the defaults on a
    video every analysis of which succeeds, it gives up (returns the
    empty list) exactly when no chunk qualifies at any of its three
    settings: 3 to 10 seconds at -40 dB, 2 to 15 at -45 dB and 2 to 20 at
    -50 dB. *)
Theorem extract_voice_references_gives_up nonsilent self mn mx thresh :
  (length (extract_voice_references nonsilent self mn mx thresh) ≤ 5)%nat
  ∧ ∀ samples c40 c45 c50,
      samples_dir self = Some samples →
      nonsilent (-40) = Some c40 →
      nonsilent (-45) = Some c45 →
      nonsilent (-50) = Some c50 →
      (extract_voice_references nonsilent self 3 10 (-40) = []
       ↔ qualifying 3 10 0 c40 = [] ∧ qualifying 2 15 0 c45 = []
         ∧ qualifying 2 20 0 c50 = []).
Proof.
  split.
  - unfold extract_voice_references.
    destruct (samples_dir self) as [samples|]; [|cbn [length]; lia].
    set (dir := path_join samples "extracted").
    assert (∀ o : option (list string),
              (∀ l, o = Some l → (length l ≤ 5)%nat) →
              (length (default [] o) ≤ 5)%nat) as Hdef.
    { intros [l|] H; cbn [default]; [by apply H | cbn [length]; lia]. }
    pose proof (Hdef _ (extract_pass_length nonsilent dir 2 20 (-50)))
      as Hlast.
    destruct (extract_pass nonsilent dir mn mx thresh) as [[|x found]|] eqn:E;
      [| by apply (extract_pass_length _ _ _ _ _ _ E) | cbn [length]; lia].
    destruct (thresh =? -40).
    + destruct (extract_pass nonsilent dir 2 15 (-45)) as [[|y found]|] eqn:E2;
        [done | by apply (extract_pass_length _ _ _ _ _ _ E2)
        | cbn [length]; lia].
    + destruct (thresh =? -45); [done | cbn [length]; lia].
  - intros samples c40 c45 c50 Hs H40 H45 H50.
    unfold extract_voice_references. rewrite Hs.
    set (dir := path_join samples "extracted").
    destruct (extract_pass_first_five_spec nonsilent dir 3 10 (-40) c40 H40)
      as [-> _].
    destruct (extract_pass_first_five_spec nonsilent dir 2 15 (-45) c45 H45)
      as [-> _].
    destruct (extract_pass_first_five_spec nonsilent dir 2 20 (-50) c50 H50)
      as [-> _].
    cbn [default]. replace (-40 =? -40) with true by done.
    destruct (qualifying 3 10 0 c40) as [|i1 l1]; cbn [take map];
      [|split; [done | by intros [? _]]].
    destruct (qualifying 2 15 0 c45) as [|i2 l2]; cbn [take map];
      [|split; [done | by intros (_ & ? & _)]].
    destruct (qualifying 2 20 0 c50) as [|i3 l3]; cbn [take map];
      [done | split; [done | by intros (_ & _ & ?)]].
Qed.

Lemma extract_voice_references_gives_up_witness :
  extract_voice_references (λ _, Some [(0, 1500); (0, 25000)])
    (set_work_directory "work") 3 10 (-40) = [].
Proof.
  destruct (extract_voice_references_gives_up
              (λ _, Some [(0, 1500); (0, 25000)])
              (set_work_directory "work") 3 10 (-40)) as [_ H].
  apply (H "work/voice_references" [(0, 1500); (0, 25000)]
           [(0, 1500); (0, 25000)] [(0, 1500); (0, 25000)]);
    try reflexivity.
  repeat split; vm_compute; reflexivity.
Defined.

(** *** Saving and loading a profile *)

Section Profiles.
Variable abspath : string → string.
Variable voice_dir : string.

Lemma with_file_fate e dst :
  same_file_same_fate abspath e →
  same_file_same_fate abspath (with_file abspath e dst).
Proof.
  intros H p q Hpq. cbn [with_file path_exists]. rewrite Hpq.
  destruct (decide _); [done|]. by apply H.
Qed.

Lemma with_file_keeps e dst p :
  path_exists e p = true → path_exists (with_file abspath e dst) p = true.
Proof. intros H. cbn [with_file path_exists]. by destruct (decide _). Qed.

Lemma with_file_new e dst :
  path_exists (with_file abspath e dst) dst = true.
Proof. cbn [with_file path_exists]. by rewrite decide_True. Qed.

(** The copies succeed when every sample is there. *)
Lemma copy_samples_saved approved : ∀ i e saved,
  same_file_same_fate abspath e →
  Forall (λ s, path_exists e s = true) approved →
  ∃ e',
    copy_samples abspath voice_dir i approved e saved
    = Saved (saved ++ map (reference_path voice_dir)
                          (seq i (length approved))) e'
    ∧ (∀ p, path_exists e p = true → path_exists e' p = true)
    ∧ Forall (λ p, path_exists e' p = true)
        (map (reference_path voice_dir) (seq i (length approved)))
    ∧ metadata_samples e' = metadata_samples e.
Proof.
  induction approved as [|s rest IH]; intros i e saved Hfate Hall.
  { exists e. cbn [copy_samples length seq map]. rewrite app_nil_r.
    repeat split; [done | apply Forall_nil_2]. }
  apply Forall_cons in Hall as [Hs Hrest].
  cbn [copy_samples length seq map].
  replace (saved ++ reference_path voice_dir i
             :: map (reference_path voice_dir) (seq (S i) (length rest)))
    with ((saved ++ [reference_path voice_dir i])
            ++ map (reference_path voice_dir) (seq (S i) (length rest)))
    by by rewrite <-app_assoc.
  destruct (decide (abspath s = abspath (reference_path voice_dir i)))
    as [Hsame|Hdiff].
  - destruct (IH (S i) e (saved ++ [reference_path voice_dir i]) Hfate Hrest)
      as (e' & Hcopy & Hmono & Hnew & Hmeta).
    exists e'. repeat split; try done.
    apply Forall_cons. split; [|done].
    apply Hmono. by rewrite <-(Hfate _ _ Hsame).
  - rewrite Hs.
    destruct (IH (S i) (with_file abspath e (reference_path voice_dir i))
                (saved ++ [reference_path voice_dir i]))
      as (e' & Hcopy & Hmono & Hnew & Hmeta).
    { by apply with_file_fate. }
    { eapply Forall_impl; [exact Hrest|]. intros p. apply with_file_keeps. }
    exists e'. repeat split; try done.
    + intros p Hp. by apply Hmono, with_file_keeps.
    + apply Forall_cons. split; [|done]. apply Hmono, with_file_new.
Qed.

(** A copy that fails has found one of the samples missing, and leaves
    every metadata file as it was. *)
Lemma copy_samples_missing approved : ∀ i e saved p e',
  copy_samples abspath voice_dir i approved e saved = SourceMissing p e' →
  p ∈ approved ∧ path_exists e p = false
  ∧ metadata_samples e' = metadata_samples e.
Proof.
  induction approved as [|s rest IH]; intros i e saved p e'; [done|].
  cbn [copy_samples].
  destruct (decide (abspath s = abspath (reference_path voice_dir i))).
  - intros H. apply IH in H as (Hin & Hp & Hmeta).
    split; [by right | done].
  - destruct (path_exists e s) eqn:Es.
    + intros H. apply IH in H as (Hin & Hp & Hmeta).
      split; [by right|]. split; [|done].
      destruct (path_exists e p) eqn:Ep; [|done].
      by rewrite (with_file_keeps e _ p Ep) in Hp.
    + intros [= <- <-]. split; [by left | done].
Qed.

End Profiles.

(** X12.  Saving then loading a profile: when the work directory is set
    and every approved sample exists, [save_approved_samples] returns the
    renumbered paths [reference_1.wav], [reference_2.wav], ... of the
    profile's directory, one for each sample in order, and a
    [load_voice_samples] of that profile afterwards returns exactly that
    list. *)
Theorem saved_profile_loads abspath e self approved_samples voice_name
    approved :
  truthy (samples_dir self) = true →
  approved_dir self = Some approved →
  same_file_same_fate abspath e →
  Forall (λ s, path_exists e s = true) approved_samples →
  let saved_paths :=
    map (reference_path (path_join approved voice_name))
      (seq 0 (length approved_samples)) in
  ∃ e',
    save_approved_samples abspath e self approved_samples voice_name
    = Saved saved_paths e'
    ∧ load_voice_samples e' self voice_name = Ok (Some saved_paths).
Proof.
  intros Hs Ha Hfate Hall saved_paths.
  destruct (copy_samples_saved abspath (path_join approved voice_name)
              approved_samples 0 e [] Hfate Hall)
    as (e1 & Hcopy & Hmono & Hnew & Hmeta).
  cbn [app] in Hcopy. fold saved_paths in Hcopy, Hnew.
  eexists. unfold save_approved_samples. rewrite Hs, Ha. cbn [negb].
  rewrite Hcopy. split; [done|].
  unfold load_voice_samples. rewrite Hs, Ha. cbn [negb].
  cbn [with_metadata metadata_samples path_exists].
  rewrite decide_True by done.
  replace (forallb _ saved_paths) with true; [done|].
  symmetry. apply forallb_forall. intros p Hp.
  destruct (decide _); [done|].
  apply list_elem_of_In in Hp.
  by apply (proj1 (Forall_forall _ _) Hnew).
Qed.

Lemma saved_profile_loads_witness :
  ∃ e',
    save_approved_samples (λ p, p) Scenario.mute_world
      (set_work_directory "work") ["a.wav"; "b.wav"] "default"
    = Saved ["work/voice_references/approved/default/reference_1.wav";
             "work/voice_references/approved/default/reference_2.wav"] e'
    ∧ load_voice_samples e' (set_work_directory "work") "default"
      = Ok (Some ["work/voice_references/approved/default/reference_1.wav";
                  "work/voice_references/approved/default/reference_2.wav"]).
Proof.
  apply (saved_profile_loads (λ p, p) Scenario.mute_world
           (set_work_directory "work") ["a.wav"; "b.wav"] "default"
           "work/voice_references/approved").
  - reflexivity.
  - reflexivity.
  - intros p q Hpq. reflexivity.
  - repeat (apply Forall_cons; split; [reflexivity|]). apply Forall_nil_2.
Defined.

(** X13.  A save that stops at a missing sample writes no metadata: the
    sample it names is one of the approved samples and does not exist,
    and every profile's metadata is what it was before the call, so no
    profile ever lists a sample that could not be copied. *)
Theorem failed_save_keeps_metadata abspath e self approved_samples voice_name
    p e' :
  save_approved_samples abspath e self approved_samples voice_name
  = SourceMissing p e' →
  p ∈ approved_samples ∧ path_exists e p = false
  ∧ metadata_samples e' = metadata_samples e.
Proof.
  unfold save_approved_samples.
  destruct (negb (truthy (samples_dir self))); [done|].
  destruct (approved_dir self) as [approved|]; [|done].
  destruct (copy_samples _ _ _ _ _ _) as [| |] eqn:E; try done.
  intros [= <- <-]. by eapply copy_samples_missing.
Qed.

Lemma failed_save_keeps_metadata_witness :
  ∃ e',
    save_approved_samples (λ p, p) (Scenario.on_disk ["a.wav"])
      (set_work_directory "work") ["a.wav"; "b.wav"] "default"
    = SourceMissing "b.wav" e'
    ∧ metadata_samples e'
      = metadata_samples (Scenario.on_disk ["a.wav"]).
Proof.
  destruct (save_approved_samples (λ p, p) (Scenario.on_disk ["a.wav"])
              (set_work_directory "work") ["a.wav"; "b.wav"] "default")
    as [| p e' |] eqn:E; try (vm_compute in E; discriminate).
  destruct (failed_save_keeps_metadata _ _ _ _ _ _ _ E) as (_ & _ & Hmeta).
  exists e'. split; [|exact Hmeta].
  f_equal. vm_compute in E. by injection E.
Defined.

End SamplesFacts.

(** ** The interactive review *)

Module ReviewFacts.
Import Py Audio.

(** One pass over the samples keeps some of them, in the order shown,
    and asks at most one question per sample. *)
Lemma review_samples_spec reuse_mode answers : ∀ samples cursor approved,
  ∃ kept,
    (review_samples reuse_mode answers cursor samples approved).1
    = approved ++ kept
    ∧ sublist kept samples
    ∧ (cursor ≤ (review_samples reuse_mode answers cursor samples approved).2
       ≤ cursor + length samples)%nat.
Proof.
  induction samples as [|sample rest IH]; intros cursor approved.
  { exists []. cbn. rewrite app_nil_r. repeat split; [done | lia | lia]. }
  cbn [review_samples].
  destruct (reuse_mode && String.eqb (choice_of (answers cursor)) "s").
  { exists (sample :: rest). cbn. repeat split; [done | lia | lia]. }
  destruct (String.eqb (choice_of (answers cursor)) "y").
  - destruct (IH (S cursor) (approved ++ [sample])) as (kept & -> & Hsub & Hc).
    exists (sample :: kept). rewrite <-app_assoc.
    repeat split; [by apply sublist_skip | lia | cbn [length]; lia].
  - destruct (IH (S cursor) approved) as (kept & -> & Hsub & Hc).
    exists kept.
    repeat split; [by apply sublist_cons | lia | cbn [length]; lia].
Qed.

(** X14.  Whatever the user types, a review that returns samples returns
    at least one, and they are a selection, in the same order, of the
    samples it was given or, outside reuse mode, of the samples extracted
    anew: the review never returns a sample from anywhere else.  (In
    reuse mode the selection may hold samples that were never played,
    those that [s] approved unheard.) *)
Theorem approved_samples_were_offered fuel reuse_mode extracted answers :
  ∀ cursor current_samples approved_samples,
  verify_rounds fuel reuse_mode extracted answers cursor current_samples
  = Returns (Some approved_samples) →
  approved_samples ≠ []
  ∧ (sublist approved_samples current_samples
     ∨ reuse_mode = false ∧ sublist approved_samples extracted).
Proof.
  induction fuel as [|fuel IH]; intros cursor current approved; [done|].
  cbn [verify_rounds].
  destruct (review_samples_spec reuse_mode answers current cursor [])
    as (kept & Hkept & Hsub & _).
  destruct (review_samples reuse_mode answers cursor current [])
    as [[|a l] cursor'] eqn:E; cbn [fst app] in Hkept.
  - destruct reuse_mode; [done|].
    destruct (String.eqb (choice_of (answers cursor')) "q"); [done|].
    destruct (String.eqb (choice_of (answers cursor')) "y"); [|done].
    intros H. apply IH in H as [Hne [Hs|[_ Hs]]]; split; try done;
      right; by split.
  - intros [= <-]. split; [done|]. left. by rewrite Hkept.
Qed.

Lemma approved_samples_were_offered_witness :
  sublist ["b.wav"; "c.wav"] ["a.wav"; "b.wav"; "c.wav"]
  ∨ false = false ∧ sublist ["b.wav"; "c.wav"] ["x.wav"].
Proof.
  apply (approved_samples_were_offered 3 false ["x.wav"]
           (Scenario.typing ["n"; " Y"; "y "]) 0
           ["a.wav"; "b.wav"; "c.wav"] ["b.wav"; "c.wav"]).
  reflexivity.
Defined.

(** In reuse mode, a pass in which [s] is first typed at sample [k]
    keeps a selection of the samples before it and every sample from it
    on. *)
Lemma review_samples_skip answers : ∀ samples cursor approved k,
  (k < length samples)%nat →
  (∀ j, (j < k)%nat → choice_of (answers (cursor + j)%nat) ≠ "s") →
  choice_of (answers (cursor + k)%nat) = "s" →
  ∃ before,
    (review_samples true answers cursor samples approved).1
    = approved ++ before ++ drop k samples
    ∧ sublist before (take k samples).
Proof.
  induction samples as [|sample rest IH]; intros cursor approved k Hk Hno Hs.
  { cbn [length] in Hk. lia. }
  cbn [review_samples andb].
  destruct k as [|k].
  - rewrite Nat.add_0_r in Hs. rewrite Hs. cbn.
    exists []. by split.
  - assert (String.eqb (choice_of (answers cursor)) "s" = false) as ->.
    { apply String.eqb_neq. specialize (Hno 0%nat ltac:(lia)).
      by rewrite Nat.add_0_r in Hno. }
    assert (∀ j, (j < k)%nat → choice_of (answers (S cursor + j)%nat) ≠ "s")
      as Hno'.
    { intros j Hj. specialize (Hno (S j) ltac:(lia)).
      by replace (cursor + S j)%nat with (S cursor + j)%nat in Hno by lia. }
    replace (cursor + S k)%nat with (S cursor + k)%nat in Hs by lia.
    cbn [length] in Hk. cbn [take drop].
    destruct (String.eqb (choice_of (answers cursor)) "y").
    + destruct (IH (S cursor) (approved ++ [sample]) k ltac:(lia) Hno' Hs)
        as (before & -> & Hsub).
      exists (sample :: before). rewrite <-app_assoc.
      split; [done | by apply sublist_skip].
    + destruct (IH (S cursor) approved k ltac:(lia) Hno' Hs)
        as (before & -> & Hsub).
      exists before. split; [done | by apply sublist_cons].
Qed.



End ReviewFacts.

(** ** Translating a window *)

Module CacheFacts.
Import Py WhisperProcessor.

Lemma save_translation_cache_file e self :
  cache_file (save_translation_cache e self) = cache_file self.
Proof.
  unfold save_translation_cache.
  by destruct (_ && _).
Qed.

Lemma save_translation_cache_keeps e self :
  translation_cache (save_translation_cache e self) = translation_cache self.
Proof.
  unfold save_translation_cache.
  by destruct (_ && _).
Qed.

(** A call never forgets or changes a cached translation. *)
Lemma translate_to_spanish_keeps e self text k v :
  translation_cache self !! k = Some v →
  translation_cache (after (translate_to_spanish e self text)) !! k = Some v.
Proof.
  intros Hk. unfold translate_to_spanish.
  destruct text as [|c text]; [done|].
  destruct (translation_cache self !! String c text) eqn:Ec; [done|].
  destruct (translate e (String c text)) as [|raw]; [done|].
  destruct (strip raw) as [|c' t']; [done|]. cbn [after].
  assert (<[String c text := String c' t']> (translation_cache self) !! k
          = Some v) as Hins.
  { rewrite lookup_insert_ne; [done|]. intros <-. congruence. }
  destruct (truthy _); [|done].
  by rewrite save_translation_cache_keeps.
Qed.

(** What a call returns for a non-empty text is its cached translation
    afterwards, or the text itself. *)
Lemma translate_to_spanish_returned e self text :
  text ≠ "" →
  translation_cache (after (translate_to_spanish e self text)) !! text
  = Some (returned (translate_to_spanish e self text))
  ∨ returned (translate_to_spanish e self text) = text.
Proof.
  intros Hne. unfold translate_to_spanish.
  destruct text as [|c text]; [done|].
  destruct (translation_cache self !! String c text) eqn:Ec; [by left|].
  destruct (translate e (String c text)) as [|raw]; [by right|].
  destruct (strip raw) as [|c' t']; [by right|]. left. cbn [after returned].
  destruct (truthy _).
  - rewrite save_translation_cache_keeps. cbn [translation_cache].
    by rewrite lookup_insert_eq.
  - cbn [translation_cache]. by rewrite lookup_insert_eq.
Qed.

(** X16.  A translation the engine gave once is never asked for again:
    after a call for a non-empty text that the engine can translate, a
    second call for the same text returns the same translation without
    calling the engine and leaves the processor as it is, even if the
    engine has changed or gone.  The call keeps every translation that
    was cached before it; and when it had to ask the engine, the cache
    file being set and its writing completing, the file holds the whole
    cache afterwards. *)
Theorem translation_is_remembered e self text raw :
  text ≠ "" →
  translate e text = EngineReturns raw →
  strip raw ≠ "" →
  let t := translate_to_spanish e self text in
  (∀ e', translate_to_spanish e' (after t) text
         = {| returned := returned t; after := after t; engine_calls := [] |})
  ∧ (∀ k v, translation_cache self !! k = Some v →
            translation_cache (after t) !! k = Some v)
  ∧ (translation_cache self !! text = None →
     truthy (cache_file self) = true →
     cache_write e = Completes →
     returned t = strip raw
     ∧ cache_on_disk (after t) = Holds (translation_cache (after t))).
Proof.
  intros Hne Hraw Hstrip t. split; [|split].
  - intros e'.
    assert (translation_cache (after t) !! text = Some (returned t)) as Hc.
    { subst t. unfold translate_to_spanish.
      destruct text as [|c text]; [done|].
      destruct (translation_cache self !! String c text) eqn:Ec; [done|].
      rewrite Hraw. destruct (strip raw) as [|c' t'] eqn:Es; [done|].
      cbn [after returned]. destruct (truthy _).
      - rewrite save_translation_cache_keeps. cbn [translation_cache].
        by rewrite lookup_insert_eq.
      - cbn [translation_cache]. by rewrite lookup_insert_eq. }
    unfold translate_to_spanish at 1.
    destruct text as [|c text]; [done|]. by rewrite Hc.
  - intros k v. apply translate_to_spanish_keeps.
  - intros Hnew Hfile Hw. subst t. unfold translate_to_spanish.
    destruct text as [|c text]; [done|].
    rewrite Hnew, Hraw. destruct (strip raw) as [|c' t'] eqn:Es; [done|].
    cbn [after returned cache_file]. rewrite Hfile.
    split; [done|].
    unfold save_translation_cache. cbn [cache_file translation_cache].
    rewrite Hfile, Hw.
    rewrite bool_decide_eq_false_2 by apply insert_non_empty.
    done.
Qed.

Lemma translation_is_remembered_witness :
  (∀ e', translate_to_spanish e'
           (after (translate_to_spanish Scenario.hola_translator
                     Scenario.warm_processor "net")) "net"
         = {| returned := "hola";
              after := after (translate_to_spanish Scenario.hola_translator
                                Scenario.warm_processor "net");
              engine_calls := [] |})
  ∧ cache_on_disk (after (translate_to_spanish Scenario.hola_translator
                            Scenario.warm_processor "net"))
    = Holds (<["net" := "hola"]> {[ "da" := "si" ]}).
Proof.
  destruct (translation_is_remembered Scenario.hola_translator
              Scenario.warm_processor "net" " hola ")
    as (Hagain & _ & Hdisk); [done | reflexivity | done |].
  split.
  - exact Hagain.
  - destruct Hdisk as [_ Hdisk]; [reflexivity | reflexivity | reflexivity |].
    exact Hdisk.
Defined.

Lemma stands_for_grows cache cache' ru es :
  (∀ k v, cache !! k = Some v → cache' !! k = Some v) →
  stands_for cache ru es → stands_for cache' ru es.
Proof.
  intros Hgrow (Hs & He & [(cached & Hc & Hes)|Hc]);
    (split; [done|]; split; [done|]).
  - left. exists cached. split; [by apply Hgrow | done].
  - by right.
Qed.

(** A line that was heard carries the segment's text, trimmed, and is
    not blank. *)
Lemma heard_line_content segment sub :
  heard_line segment = Some sub →
  VoiceCloner.start sub = seg_start segment
  ∧ VoiceCloner.end_ sub = seg_end segment
  ∧ VoiceCloner.content sub = strip (seg_text segment)
  ∧ strip (seg_text segment) ≠ "".
Proof.
  unfold heard_line.
  destruct (strip (seg_text segment)) as [|c ru_text] eqn:Es; [done|].
  assert (strip (String c ru_text) = String c ru_text) as Hid.
  { by rewrite <-Es, StringFacts.strip_idempotent. }
  intros [= <-]. by repeat split.
Qed.

Lemma omap_heard_cons segment rest :
  omap heard_line (segment :: rest)
  = match strip (seg_text segment) with
    | EmptyString => omap heard_line rest
    | ru_text =>
        VoiceCloner.new_subtitle (seg_start segment) (seg_end segment) ru_text
        :: omap heard_line rest
    end.
Proof.
  change (omap heard_line (segment :: rest))
    with (match heard_line segment with
          | Some sub => sub :: omap heard_line rest
          | None => omap heard_line rest
          end).
  unfold heard_line. by destruct (strip (seg_text segment)).
Qed.

(** The loop over the segments, from any state. *)
Lemma translate_segments_spec e : ∀ segments self ru es,
  ∃ self' es',
    translate_segments e self segments ru es
    = (self', ru ++ omap heard_line segments, es ++ es')
    ∧ (∀ k v, translation_cache self !! k = Some v →
              translation_cache self' !! k = Some v)
    ∧ cache_file self' = cache_file self
    ∧ Forall2 (stands_for (translation_cache self'))
        (omap heard_line segments) es'.
Proof.
  induction segments as [|segment rest IH]; intros self ru es.
  { exists self, []. cbn. rewrite !app_nil_r. by repeat split. }
  rewrite omap_heard_cons. cbn [translate_segments].
  destruct (strip (seg_text segment)) as [|c ru_text] eqn:Es.
  { destruct (IH self ru es) as (self' & es' & -> & Hgrow & Hfile & Hall).
    by exists self', es'. }
  set (t := translate_to_spanish e self (String c ru_text)).
  destruct (IH (after t)
              (ru ++ [VoiceCloner.new_subtitle (seg_start segment)
                        (seg_end segment) (String c ru_text)])
              (es ++ [VoiceCloner.new_subtitle (seg_start segment)
                        (seg_end segment) (returned t)]))
    as (self' & es' & -> & Hgrow & Hfile & Hall).
  exists self',
    (VoiceCloner.new_subtitle (seg_start segment) (seg_end segment)
       (returned t) :: es').
  rewrite <-!app_assoc. cbn [app]. split; [done|]. split; [|split].
  - intros k v Hk. by apply Hgrow, translate_to_spanish_keeps.
  - rewrite Hfile. subst t. unfold translate_to_spanish.
    destruct (translation_cache self !! String c ru_text); [done|].
    destruct (translate e (String c ru_text)) as [|raw]; [done|].
    destruct (strip raw); [done|]. cbn [after cache_file].
    destruct (truthy _); [|done]. by rewrite save_translation_cache_file.
  - apply Forall2_cons. split; [|done].
    apply (stands_for_grows (translation_cache (after t))); [done|].
    assert (strip (String c ru_text) = String c ru_text) as Hid.
    { by rewrite <-Es, StringFacts.strip_idempotent. }
    split; [done|]. split; [done|].
    unfold VoiceCloner.new_subtitle. cbn [VoiceCloner.content]. rewrite Hid.
    destruct (translate_to_spanish_returned e self (String c ru_text))
      as [Hc|Hc]; [done| |].
    + left. by exists (returned t).
    + right. fold t in Hc. by rewrite Hc.
Qed.

(** X17.  The two subtitle tracks of a window are parallel.  The source
    track has one line for each Whisper segment whose text is not blank,
    in order, with the segment's timing and its text stripped; the
    target track has a line with the same timing for each of them, whose
    text is the translation the cache holds for the source text
    afterwards, trimmed, or the source text itself when it could not be
    translated.  Subtitle files are written exactly when the source
    track is not empty, and no translation cached before the window is
    lost or changed. *)
Theorem window_tracks_are_parallel e transcription self temp_dir start_time
    end_time :
  let r := process_video_segment e transcription self temp_dir start_time
             end_time in
  ru_subs r = omap heard_line (default [] transcription)
  ∧ Forall (λ ru, VoiceCloner.content ru ≠ ""
                  ∧ strip (VoiceCloner.content ru) = VoiceCloner.content ru)
      (ru_subs r)
  ∧ Forall2 (stands_for (translation_cache (processor_after r)))
      (ru_subs r) (es_subs r)
  ∧ (written r = [] ↔ ru_subs r = [])
  ∧ (∀ k v, translation_cache self !! k = Some v →
            translation_cache (processor_after r) !! k = Some v).
Proof.
  intros r. subst r. unfold process_video_segment.
  assert (∀ segments,
            Forall (λ ru, VoiceCloner.content ru ≠ ""
                          ∧ strip (VoiceCloner.content ru)
                            = VoiceCloner.content ru)
              (omap heard_line segments)) as Hclean.
  { intros segments. apply Forall_forall. intros ru Hin.
    apply list_elem_of_omap in Hin as (segment & _ & Hh).
    apply heard_line_content in Hh as (_ & _ & -> & Hne).
    split; [done | apply StringFacts.strip_idempotent]. }
  destruct transcription as [segments|]; cbn [default].
  - destruct (translate_segments_spec e segments self [] [])
      as (self' & es' & -> & Hgrow & _ & Hall).
    cbn [app ru_subs es_subs processor_after written].
    repeat split; try done.
    + by destruct (omap heard_line segments).
    + by destruct (omap heard_line segments).
  - cbn. by repeat split.
Qed.

End CacheFacts.

(** ** The names of the subtitle files *)

Module SubtitleFacts.
Import Py VideoDubber.

Lemma string_app_nil_l (a : string) : "" +:+ a = a.
Proof. reflexivity. Qed.

Lemma has_char_app c (a b : string) :
  has_char c (a +:+ b) = has_char c a || has_char c b.
Proof.
  induction a as [|x a IH]; [done|].
  rewrite StringFacts.string_app_cons. cbn [has_char].
  by rewrite IH, orb_assoc.
Qed.

(** What [os.path.join] puts in front of a relative name. *)
Lemma path_join_relative a b :
  (∀ rest, b ≠ String "/" rest) →
  path_join a b
  = (if ends_with_slash a then a
     else match a with
          | EmptyString => EmptyString
          | _ => a +:+ "/"
          end) +:+ b.
Proof.
  intros Hrel. unfold path_join.
  destruct b as [|c rest].
  - destruct (ends_with_slash a); [done|]. destruct a; [done|].
    by rewrite StringFacts.string_app_assoc.
  - destruct (decide (c = "/"%char)) as [->|Hc]; [by destruct (Hrel rest)|].
    destruct c as [[] [] [] [] [] [] [] []]; try done;
      (destruct (ends_with_slash a); [done|]; destruct a; [done|];
       by rewrite StringFacts.string_app_assoc).
Qed.

Lemma named_file_relative lang rest :
  has_char "/" lang = false →
  ∀ r, lang +:+ String "_" rest ≠ String "/" r.
Proof.
  intros Hlang r. destruct lang as [|c lang]; [done|].
  rewrite StringFacts.string_app_cons. intros [= -> _].
  cbn [has_char] in Hlang. by rewrite Ascii.eqb_refl in Hlang.
Qed.

(** The fraction [repr] prints starts with a digit. *)
Lemma repr_float_shape q :
  ∃ whole c frac,
    repr_float q = whole +:+ String "." (String c frac)
    ∧ has_char "." whole = false ∧ c ≠ "s"%char.
Proof.
  unfold repr_float.
  set (n := Qnum q). set (d := Z.pos (Qden q)). set (a := Z.abs n).
  assert (∀ k, digit_char k ≠ "s"%char) as Hdigit.
  { intros k. unfold digit_char, pretty_N_char. repeat case_match; done. }
  assert (∃ c frac,
            match frac_digits 17 (a mod d) d with
            | EmptyString => "0"
            | String c frac => String c frac
            end = String c frac ∧ c ≠ "s"%char) as (c & frac & Hfrac & Hc).
  { cbn [frac_digits]. destruct (a mod d =? 0).
    - by exists "0"%char, "".
    - eexists _, _. split; [done | apply Hdigit]. }
  exists ((if n <? 0 then "-" else "") +:+ pretty (a / d)), c, frac.
  split; [|split; [|done]].
  - rewrite StringFacts.string_app_assoc. do 2 f_equal.
    change ("." +:+ ?x) with (String "." x). f_equal.
    revert Hfrac. by destruct (frac_digits 17 (a mod d) d).
  - rewrite has_char_app, KeyFacts.pretty_Z_no_dot.
    by destruct (n <? 0).
Qed.

(** X18.  The subtitle files [process_video_segment] writes for a window
    are the files [validate_progress] looks for exactly when the window's
    end is an int.  For a window that ends at the video's duration, a
    float, the written name carries the fraction ([es_600_700.5.srt],
    [es_300_600.0.srt]) and no name validation builds is equal to it. *)
Theorem written_subtitles_are_found_for_int_ends temp_dir lang start_time
    end_time s' t' :
  has_char "/" lang = false →
  WhisperProcessor.srt_path temp_dir lang start_time end_time
  = subtitle_path temp_dir lang s' t'
  ↔ start_time = s' ∧ end_time = Int t'.
Proof.
  intros Hlang. split; [|by intros [-> ->]].
  unfold WhisperProcessor.srt_path, subtitle_path.
  change ("_" +:+ ?x) with (String "_" x).
  rewrite (path_join_relative _ (lang +:+ String "_" (pretty start_time +:+ _)))
    by by apply named_file_relative.
  rewrite (path_join_relative _ (lang +:+ String "_" (pretty s' +:+ _)))
    by by apply named_file_relative.
  intros H. apply String.app_inj, String.app_inj in H.
  injection H as H.
  assert (start_time = s') as <-.
  { apply (inj pretty). revert H.
    apply KeyFacts.first_occurrence; apply KeyFacts.pretty_Z_no_underscore. }
  split; [done|].
  apply String.app_inj in H. injection H as H.
  rewrite !string_app_nil_l in H.
  change (".srt") with (String "." "srt") in H.
  destruct end_time as [z|q]; cbn [format] in H.
  - f_equal. apply (inj pretty). revert H.
    apply KeyFacts.first_occurrence; apply KeyFacts.pretty_Z_no_dot.
  - exfalso.
    destruct (repr_float_shape q) as (whole & c & frac & Hq & Hwhole & Hc).
    rewrite Hq, StringFacts.string_app_assoc in H.
    rewrite !StringFacts.string_app_cons in H.
    assert (whole = pretty t') as Hw.
    { revert H. apply KeyFacts.first_occurrence;
        [done | apply KeyFacts.pretty_Z_no_dot]. }
    rewrite Hw in H. apply String.app_inj in H. by injection H as -> _.
Qed.

Lemma written_subtitles_are_found_for_int_ends_witness :
  (WhisperProcessor.srt_path "work" "es" 0 (Int 300)
   = subtitle_path "work" "es" 0 300)
  ∧ WhisperProcessor.srt_path "work" "es" 600 (Float (1401 # 2))
    ≠ subtitle_path "work" "es" 600 700.
Proof.
  split.
  - apply (written_subtitles_are_found_for_int_ends "work" "es" 0 (Int 300)
             0 300); [reflexivity | by split].
  - intros H.
    apply (written_subtitles_are_found_for_int_ends "work" "es" 600
             (Float (1401 # 2)) 600 700) in H; [|reflexivity].
    destruct H as [_ H]. discriminate H.
Defined.

End SubtitleFacts.

(** ** Windows without speech *)

Module SilenceFacts.
Import Py VideoDubber.

(** Without subtitles there is no audio. *)
Lemma generate_timed_audio_nil e self out reference max_gap :
  VoiceCloner.returned
    (VoiceCloner.generate_timed_audio e self [] out reference max_gap)
  = false.
Proof.
  unfold VoiceCloner.generate_timed_audio.
  by destruct (VoiceCloner.resolve_reference e self reference).
Qed.

Lemma unheard_step e reference W dubbed self start_time :
  process_video_segment e start_time (window_end (duration e) W start_time)
  = [] →
  progress self
    !! segment_key start_time (window_end (duration e) W start_time) = None →
  segment_step e reference W (dubbed, self) start_time = Ok (dubbed, self).
Proof.
  intros Hnone Hkey. unfold segment_step. rewrite Hkey.
  unfold process_segment. by rewrite Hnone, generate_timed_audio_nil.
Qed.

Lemma unheard_loop e reference W starts : ∀ dubbed self,
  (∀ s, s ∈ starts →
        process_video_segment e s (window_end (duration e) W s) = []
        ∧ progress self !! segment_key s (window_end (duration e) W s)
          = None) →
  segment_loop e reference W starts (dubbed, self) = Ok (dubbed, self).
Proof.
  induction starts as [|s rest IH]; intros dubbed self Hall; [done|].
  cbn [segment_loop].
  destruct (Hall s) as [Hnone Hkey]; [apply list_elem_of_here|].
  rewrite (unheard_step _ _ _ _ _ _ Hnone Hkey). cbn.
  apply IH. intros s' Hs'. apply Hall. by apply list_elem_of_further.
Qed.

(** X19.  A window in which nothing is heard gets no clip and no ledger
    entry: [process_segment] fails on it ("Failed to generate audio"),
    and the loop passes it by, leaving the clips collected so far and
    the dubber as they are, so the final video simply lacks that
    window.  A video in which nothing is heard in any window ends in
    "No segments were successfully processed", with nothing
    concatenated. *)
Theorem unheard_window_is_left_out e self reference W :
  (∀ start_time dubbed,
     process_video_segment e start_time
       (window_end (duration e) W start_time) = [] →
     process_segment e self reference start_time
       (window_end (duration e) W start_time) = None
     ∧ (progress self
          !! segment_key start_time (window_end (duration e) W start_time)
        = None →
        segment_step e reference W (dubbed, self) start_time
        = Ok (dubbed, self)))
  ∧ (progress self = ∅ →
     reference_audio e = Some reference →
     W ≠ 0 →
     (∀ start_time end_time, process_video_segment e start_time end_time = []) →
     dub_video e self W
     = {| status := Failed (RuntimeError
                      "No segments were successfully processed");
          concatenated := None;
          ledger := Some ∅ |}).
Proof.
  split.
  - intros start_time dubbed Hnone. split.
    + unfold process_segment. by rewrite Hnone, generate_timed_audio_nil.
    + intros Hkey. by apply unheard_step.
  - intros Hempty Href HW Hnone.
    unfold dub_video, validate_progress.
    rewrite bool_decide_eq_true_2 by done. rewrite Href.
    destruct (DubFacts.ceil_div_nonzero (duration e) W HW) as [n Hn].
    unfold total_segments. rewrite Hn.
    destruct (KeyFacts.range_step_nonzero 0 (int_of_float (duration e)) W HW)
      as [starts Hstarts].
    unfold window_starts. rewrite Hstarts.
    rewrite unheard_loop.
    + by rewrite Hempty.
    + intros s _. split; [apply Hnone|]. by rewrite Hempty, lookup_empty.
Qed.

Lemma unheard_window_is_left_out_witness :
  dub_video (Scenario.silent_film 700) (Scenario.dubber_with ∅) 300
  = {| status := Failed (RuntimeError
                   "No segments were successfully processed");
       concatenated := None;
       ledger := Some ∅ |}
  ∧ segment_step (Scenario.studio ["ref.wav"] 700) "ref.wav" 300
      (["work/video/temp_output_0.mp4"], Scenario.dubber_with ∅) 300
    = Ok (["work/video/temp_output_0.mp4"], Scenario.dubber_with ∅).
Proof.
  split.
  - apply (unheard_window_is_left_out (Scenario.silent_film 700)
             (Scenario.dubber_with ∅) "ref.wav" 300);
      [reflexivity | reflexivity | lia | reflexivity].
  - apply (unheard_window_is_left_out (Scenario.studio ["ref.wav"] 700)
             (Scenario.dubber_with ∅) "ref.wav" 300);
      reflexivity.
Defined.

End SilenceFacts.

(** ** The translation cache across runs *)

Module RestartFacts.
Import Py WhisperProcessor.

Lemma cache_file_is_set work_dir :
  truthy (Some (path_join work_dir "translation_cache.json")) = true.
Proof.
  rewrite SubtitleFacts.path_join_relative by done.
  by destruct (if ends_with_slash work_dir then work_dir
               else match work_dir with
                    | EmptyString => EmptyString
                    | _ => work_dir +:+ "/"
                    end).
Qed.

(** What the writes of the cache file leave on disk, from a processor
    [s] to a later one [s']: with writes that complete, the file keeps
    pace with the cache; with a file that cannot be opened, it is left
    alone; with writes that fail half-way, either nothing was written or
    the file is torn. *)
Local Abbreviation cache_follows e s s' :=
  ((cache_write e = Completes → cache_in_sync s → cache_in_sync s')
   ∧ (cache_write e = Refused → cache_on_disk s' = cache_on_disk s)
   ∧ (cache_write e = Tears →
      (translation_cache s' = translation_cache s
       ∧ cache_on_disk s' = cache_on_disk s)
      ∨ cache_on_disk s' = Unreadable JSONDecodeError)).

Lemma cache_follows_refl e s : cache_follows e s s.
Proof. split; [done|]. split; [done|]. intros _. by left. Qed.

Lemma cache_follows_trans e s1 s2 s3 :
  cache_follows e s1 s2 → cache_follows e s2 s3 → cache_follows e s1 s3.
Proof.
  intros (Hc1 & Hr1 & Ht1) (Hc2 & Hr2 & Ht2). split; [|split].
  - intros Hw Hs. by apply Hc2, Hc1.
  - intros Hw. by rewrite Hr2, Hr1.
  - intros Hw. destruct (Ht2 Hw) as [[Hp2 Hd2]|Htorn]; [|by right].
    destruct (Ht1 Hw) as [[Hp1 Hd1]|Htorn].
    + left. split; congruence.
    + right. congruence.
Qed.

Lemma translate_to_spanish_file e self text :
  cache_file (after (translate_to_spanish e self text)) = cache_file self.
Proof.
  unfold translate_to_spanish. destruct text as [|c text]; [done|].
  destruct (translation_cache self !! String c text); [done|].
  destruct (translate e (String c text)) as [|raw]; [done|].
  destruct (strip raw); [done|]. cbn [after cache_file].
  destruct (truthy _); [|done].
  by rewrite CacheFacts.save_translation_cache_file.
Qed.

Lemma translate_to_spanish_follows e self text :
  truthy (cache_file self) = true →
  cache_follows e self (after (translate_to_spanish e self text)).
Proof.
  intros Hfile. unfold translate_to_spanish.
  destruct text as [|c text]; [apply cache_follows_refl|].
  destruct (translation_cache self !! String c text);
    [apply cache_follows_refl|].
  destruct (translate e (String c text)) as [|raw];
    [apply cache_follows_refl|].
  destruct (strip raw) as [|c' t']; [apply cache_follows_refl|].
  cbn [after cache_file]. rewrite Hfile.
  unfold save_translation_cache, cache_in_sync.
  cbn [cache_file translation_cache cache_on_disk].
  rewrite Hfile. rewrite bool_decide_eq_false_2 by apply insert_non_empty.
  cbn [negb andb cache_on_disk translation_cache].
  split; [|split]; intros ->; cbn [file_after]; [done | done | by right].
Qed.

Lemma translate_segments_follows e : ∀ segments self ru es,
  truthy (cache_file self) = true →
  cache_follows e self (translate_segments e self segments ru es).1.1.
Proof.
  induction segments as [|segment rest IH]; intros self ru es Hfile.
  { apply cache_follows_refl. }
  cbn [translate_segments].
  destruct (strip (seg_text segment)) as [|c ru_text]; [by apply IH|].
  eapply cache_follows_trans.
  - by apply (translate_to_spanish_follows e self (String c ru_text)).
  - apply IH. by rewrite translate_to_spanish_file.
Qed.



End RestartFacts.

(** ** Sentences *)

Module SentenceFacts.
Import Py VoiceCloner.

Lemma string_snoc_nonempty (s : string) (c : ascii) :
  s +:+ String c "" ≠ "".
Proof. by destruct s. Qed.

(** The loop appends trimmed sentences, and holds something at its end
    unless there was nothing to read. *)
Lemma sentences_loop_spec : ∀ text current sentences,
  ∃ new,
    (sentences_loop text current sentences).2 = sentences ++ new
    ∧ Forall (λ s, strip s = s) new
    ∧ ((sentences_loop text current sentences).1 = "" → new = [] →
       text = "" ∧ current = "").
Proof.
  induction text as [|char rest IH]; intros current sentences.
  { exists []. cbn. by rewrite app_nil_r. }
  cbn [sentences_loop].
  destruct (has_char char ".!?").
  - destruct (IH "" (sentences ++ [strip (current +:+ String char "")]))
      as (new & -> & Hall & _).
    exists (strip (current +:+ String char "") :: new).
    rewrite <-app_assoc. split; [done|]. split; [|done].
    apply Forall_cons. split; [apply StringFacts.strip_idempotent | done].
  - destruct (IH (current +:+ String char "") sentences)
      as (new & -> & Hall & Hend).
    exists new. split; [done|]. split; [done|].
    intros H1 H2. destruct (Hend H1 H2) as [_ Hcur].
    by destruct (string_snoc_nonempty current char).
Qed.


End SentenceFacts.
